(** * battler-ai-gemini-py: the validation, templating and reconciliation layer

    A shallow embedding of [battler-ai-gemini-py/main.py].

    - Python [str] values are sequences of Unicode code points: [list N].
    - Python exceptions are values of [exn]; a function that may raise
      returns [result A = exn + A].
    - The calls to the remote service go through a small state-and-error
      monad over an arbitrary service, and every call is logged together
      with its answer.
    - The modules [re], [json], [pathlib] and [mimetypes] are not part of
      the repository.  [re] is modelled for the fragment of the pattern
      language that the three patterns of the program use; the Unicode
      alphanumeric table behind [\w], the [json] functions and the local
      file system are parameters.

    Embedded are [validate_player], [validate_input], [prompt_input],
    [ensure_file], [ensure_all_files_in_directory], [ensure_cache] and
    [gemini_battler].  [print] and [write_debug_file] only write to the
    console and to the local disk, [write_debug_file] swallows every
    exception, and neither talks to the remote service: they are left out
    of the embedding. *)

From Stdlib Require Import List NArith ZArith Bool Arith Lia.
From Stdlib Require String Ascii.
From Stdlib Require SpecFloat.
Import ListNotations.
Import String.StringSyntax.
Abbreviation string := String.string.
Open Scope string_scope.
Open Scope list_scope.

Set Implicit Arguments.

(* ===================================================================== *)
(** * Strings *)
(* ===================================================================== *)

(** A Python [str]: the sequence of its code points. *)
Definition str := list N.

(** The code points of an ASCII literal. *)
Definition u (s : string) : str :=
  map Ascii.N_of_ascii (String.list_ascii_of_string s).

(** [s1 == s2] on strings. *)
Fixpoint str_eqb (s1 s2 : str) : bool :=
  match s1, s2 with
  | [], [] => true
  | c1 :: t1, c2 :: t2 => N.eqb c1 c2 && str_eqb t1 t2
  | _, _ => false
  end.

(** [a == b] where either side may be [None]. *)
Definition opt_str_eqb (a b : option str) : bool :=
  match a, b with
  | None, None => true
  | Some x, Some y => str_eqb x y
  | _, _ => false
  end.

(** [not s] for a string: true exactly for the empty string. *)
Definition str_is_empty (s : str) : bool :=
  match s with [] => true | _ :: _ => false end.

(* ===================================================================== *)
(** * Exceptions *)
(* ===================================================================== *)

(** The exception classes the program meets, each with its message.
    [UnboundLocalError] is a subclass of [NameError], [JSONDecodeError] of
    [ValueError].  [ReError] is [re.error]; [RemoteError] stands for
    whatever the remote client raises. *)
Inductive exn : Type :=
| NameError (msg : string)
| UnboundLocalError (msg : string)
| ValueError (msg : string)
| JSONDecodeError (msg : string)
| ReError (msg : string)
| RemoteError (msg : string).

Definition result (A : Type) : Type := (exn + A)%type.

(** [isinstance(e, NameError)]. *)
Definition is_NameError (e : exn) : bool :=
  match e with
  | NameError _ | UnboundLocalError _ => true
  | _ => false
  end.

(** [isinstance(e, ValueError)]. *)
Definition is_ValueError (e : exn) : bool :=
  match e with
  | ValueError _ | JSONDecodeError _ => true
  | _ => false
  end.

(* ===================================================================== *)
(** * Character classes of [re] on [str] patterns *)
(* ===================================================================== *)

(** [Py_UNICODE_ISSPACE]: the code points [\s] matches. *)
Definition Py_UNICODE_ISSPACE (c : N) : bool :=
  ((9 <=? c) && (c <=? 13) || (28 <=? c) && (c <=? 32)
   || (c =? 133) || (c =? 160) || (c =? 5760)
   || (8192 <=? c) && (c <=? 8202)
   || (c =? 8232) || (c =? 8233) || (c =? 8239) || (c =? 8287)
   || (c =? 12288))%N.

(** ASCII letters and digits. *)
Definition ascii_alnum (c : N) : bool :=
  ((48 <=? c) && (c <=? 57) || (65 <=? c) && (c <=? 90)
   || (97 <=? c) && (c <=? 122))%N.

(** The characters of [[A-Za-z0-9_-]]. *)
Definition ascii_id_char (c : N) : bool :=
  (ascii_alnum c || (c =? 95) || (c =? 45))%N.

(** The Unicode alphanumeric table restricted to Latin-1: the letters,
    digits and numerics among U+0080..U+00FF, nothing above. *)
Definition latin1_alnum (c : N) : bool :=
  ((c =? 170) || (c =? 178) || (c =? 179) || (c =? 181) || (c =? 185)
   || (c =? 186) || (188 <=? c) && (c <=? 190)
   || (192 <=? c) && (c <=? 214) || (216 <=? c) && (c <=? 246)
   || (248 <=? c) && (c <=? 255))%N.

(** The character categories of the fragment. *)
Inductive category : Type :=
| CATEGORY_SPACE
| CATEGORY_NOT_SPACE
| CATEGORY_WORD
| CATEGORY_NOT_WORD.

(** What one pattern position accepts. *)
Inductive charset : Type :=
| LITERAL (c : N)
| ANY
| CATEGORY (cat : category)
| IN (items : list set_item)
with set_item : Type :=
| SetLiteral (c : N)
| SetCategory (cat : category).

Inductive quantifier : Type :=
| ONCE
| MAX_REPEAT_1.

(** A compiled pattern of the fragment: one-character nodes, each taken
    once or one or more times (greedy), and the anchors [^] and [$]. *)
Inductive node : Type :=
| CHARS (cs : charset) (q : quantifier)
| AT_BEGINNING
| AT_END.

Definition regex := list node.

(* ===================================================================== *)
(** * [re]: escaping and parsing patterns *)
(* ===================================================================== *)

(** The characters [re.escape] puts a backslash before:
    [()[]{}?*+-|^$\.&~#], the space, TAB, LF, CR, VT and FF. *)
Definition re_special_chars : list N :=
  [40; 41; 91; 93; 123; 125; 63; 42; 43; 45; 124; 94; 36; 92; 46; 38; 126;
   35; 32; 9; 10; 13; 11; 12]%N.

Definition is_re_special (c : N) : bool :=
  existsb (N.eqb c) re_special_chars.

(** [re.escape(pattern)]. *)
Definition re_escape (pattern : str) : str :=
  flat_map (fun c => if is_re_special c then [92%N; c] else [c]) pattern.

(** The tokens of a pattern: a one-character matcher, [+], [^] or [$]. *)
Inductive token : Type :=
| TChars (cs : charset)
| TPlus
| TBeginning
| TEnd.

(** The category a letter names after a backslash: [\s], [\S], [\w], [\W]. *)
Definition category_of_letter (c : N) : option category :=
  if (c =? 115)%N then Some CATEGORY_SPACE
  else if (c =? 83)%N then Some CATEGORY_NOT_SPACE
  else if (c =? 119)%N then Some CATEGORY_WORD
  else if (c =? 87)%N then Some CATEGORY_NOT_WORD
  else None.

Definition outside_fragment : exn :=
  ReError "pattern outside the modelled fragment".

(** A backslash followed by [c], outside a set: a category, or the
    character itself unless it is an ASCII letter or digit (those are
    special escapes, group references or errors in [re]). *)
Definition parse_escape (c : N) : result charset :=
  match category_of_letter c with
  | Some cat => inr (CATEGORY cat)
  | None => if ascii_alnum c then inl outside_fragment else inr (LITERAL c)
  end.

(** The same inside a set. *)
Definition parse_class_escape (c : N) : result set_item :=
  match category_of_letter c with
  | Some cat => inr (SetCategory cat)
  | None => if ascii_alnum c then inl outside_fragment else inr (SetLiteral c)
  end.

Definition cons_token (t : token) (r : result (list token)) : result (list token) :=
  match r with
  | inl e => inl e
  | inr ts => inr (t :: ts)
  end.

(** The tokens of a pattern.  Groups, alternation, [*], [?], braces,
    negated sets and ranges are outside the fragment. *)
Fixpoint tokenize (s : str) {struct s} : result (list token) :=
  match s with
  | [] => inr []
  | c :: s1 =>
      if (c =? 92)%N then
        match s1 with
        | [] => inl (ReError "bad escape (end of pattern)")
        | e :: s2 =>
            match parse_escape e with
            | inl x => inl x
            | inr cs => cons_token (TChars cs) (tokenize s2)
            end
        end
      else if (c =? 91)%N then
        match s1 with
        | f :: _ => if (f =? 94)%N then inl outside_fragment else tokenize_set [] true s1
        | [] => tokenize_set [] true s1
        end
      else if (c =? 43)%N then cons_token TPlus (tokenize s1)
      else if (c =? 94)%N then cons_token TBeginning (tokenize s1)
      else if (c =? 36)%N then cons_token TEnd (tokenize s1)
      else if (c =? 46)%N then cons_token (TChars ANY) (tokenize s1)
      else if existsb (N.eqb c) [42; 63; 123; 40; 41; 124]%N then inl outside_fragment
      else cons_token (TChars (LITERAL c)) (tokenize s1)
  end
with tokenize_set (acc : list set_item) (first : bool) (s : str) {struct s}
  : result (list token) :=
  match s with
  | [] => inl (ReError "unterminated character set")
  | c :: s1 =>
      if (c =? 93)%N then
        if first then inl outside_fragment
        else cons_token (TChars (IN (rev acc))) (tokenize s1)
      else if (c =? 92)%N then
        match s1 with
        | [] => inl (ReError "unterminated character set")
        | e :: s2 =>
            match parse_class_escape e with
            | inl x => inl x
            | inr item =>
                match s2 with
                | d :: r1 =>
                    if (d =? 45)%N then
                      match r1 with
                      | [] => inl (ReError "unterminated character set")
                      | f :: r2 =>
                          if (f =? 93)%N
                          then cons_token (TChars (IN (rev (SetLiteral 45 :: item :: acc))))
                                          (tokenize r2)
                          else inl outside_fragment
                      end
                    else tokenize_set (item :: acc) false s2
                | [] => tokenize_set (item :: acc) false s2
                end
            end
        end
      else
        match s1 with
        | d :: r1 =>
            if (d =? 45)%N then
              match r1 with
              | [] => inl (ReError "unterminated character set")
              | f :: r2 =>
                  if (f =? 93)%N
                  then cons_token (TChars (IN (rev (SetLiteral 45 :: SetLiteral c :: acc))))
                                  (tokenize r2)
                  else inl outside_fragment
              end
            else tokenize_set (SetLiteral c :: acc) false s1
        | [] => tokenize_set (SetLiteral c :: acc) false s1
        end
  end.

Definition cons_node (n : node) (r : result regex) : result regex :=
  match r with
  | inl e => inl e
  | inr ns => inr (n :: ns)
  end.

(** Attaches each [+] to the character matcher before it.  A [+] with
    nothing to repeat, after an anchor or after another [+] is an error
    or outside the fragment. *)
Fixpoint attach (ts : list token) : result regex :=
  match ts with
  | [] => inr []
  | TChars cs :: TPlus :: rest => cons_node (CHARS cs MAX_REPEAT_1) (attach rest)
  | TChars cs :: rest => cons_node (CHARS cs ONCE) (attach rest)
  | TBeginning :: rest => cons_node AT_BEGINNING (attach rest)
  | TEnd :: rest => cons_node AT_END (attach rest)
  | TPlus :: _ => inl (ReError "nothing to repeat")
  end.

Definition is_chars (n : node) : bool :=
  match n with
  | CHARS _ _ => true
  | _ => false
  end.

(** [re.compile(pattern)] on the fragment.  A pattern with no character
    matcher can match the empty string and is left outside as well, so
    that every match of a compiled pattern takes at least one character. *)
Definition re_compile (pattern : str) : result regex :=
  match tokenize pattern with
  | inl e => inl e
  | inr ts =>
      match attach ts with
      | inl e => inl e
      | inr r => if existsb is_chars r then inr r else inl outside_fragment
      end
  end.

(* ===================================================================== *)
(** * [re]: matching, [re.sub] and [re.findall] *)
(* ===================================================================== *)

Section Re.

(** [Py_UNICODE_ISALNUM] above ASCII: the Unicode database's table, which
    is not part of the repository. *)
Variable unicode_alnum : N -> bool.

Definition Py_UNICODE_ISALNUM (c : N) : bool :=
  if (c <? 128)%N then ascii_alnum c else unicode_alnum c.

(** The characters [\w] matches in a [str] pattern: alphanumerics and
    the underscore. *)
Definition is_word (c : N) : bool :=
  Py_UNICODE_ISALNUM c || (c =? 95)%N.

Definition category_test (cat : category) (c : N) : bool :=
  match cat with
  | CATEGORY_SPACE => Py_UNICODE_ISSPACE c
  | CATEGORY_NOT_SPACE => negb (Py_UNICODE_ISSPACE c)
  | CATEGORY_WORD => is_word c
  | CATEGORY_NOT_WORD => negb (is_word c)
  end.

Definition set_item_test (it : set_item) (c : N) : bool :=
  match it with
  | SetLiteral l => (c =? l)%N
  | SetCategory cat => category_test cat c
  end.

(** Whether the character [c] is accepted at a pattern position.  [.]
    takes everything but the line feed. *)
Definition charset_test (cs : charset) (c : N) : bool :=
  match cs with
  | LITERAL l => (c =? l)%N
  | ANY => negb (c =? 10)%N
  | CATEGORY cat => category_test cat c
  | IN items => existsb (fun it => set_item_test it c) items
  end.

(** [$] without [re.MULTILINE]: the end of the string, or just before a
    line feed that ends the string. *)
Definition at_end (s : str) : bool :=
  match s with
  | [] => true
  | [c] => (c =? 10)%N
  | _ => false
  end.

(** The rest of a greedy repetition: as many more characters as [p]
    accepts, giving them back one at a time while the continuation [k]
    fails. *)
Fixpoint repeat_more (p : N -> bool) (k : str -> option str) (s : str) : option str :=
  match s with
  | c :: s' =>
      if p c then
        match repeat_more p k s' with
        | Some rest => Some rest
        | None => k s
        end
      else k s
  | [] => k s
  end.

(** [rmatch r bos s]: the pattern [r] matched at the head of [s], where
    [bos] says whether [s] starts at the beginning of the subject; the
    result is what is left of [s] after the match. *)
Fixpoint rmatch (r : regex) (bos : bool) (s : str) : option str :=
  match r with
  | [] => Some s
  | AT_BEGINNING :: r' => if bos then rmatch r' bos s else None
  | AT_END :: r' => if at_end s then rmatch r' bos s else None
  | CHARS cs ONCE :: r' =>
      match s with
      | c :: s' => if charset_test cs c then rmatch r' false s' else None
      | [] => None
      end
  | CHARS cs MAX_REPEAT_1 :: r' =>
      match s with
      | c :: s' =>
          if charset_test cs c
          then repeat_more (charset_test cs) (rmatch r' false) s'
          else None
      | [] => None
      end
  end.

(** The text a match took: what [s] has before [rest]. *)
Definition matched (s rest : str) : str :=
  firstn (length s - length rest) s.

(** The scan of [re.sub]: at each position, leftmost first, a match is
    replaced by [repl] of its text and the scan goes on after it; where
    nothing matches the character is copied.  Every step takes at least
    one character of the subject, so fuel above its length is never used
    up. *)
Fixpoint sub_loop (fuel : nat) (r : regex) (repl : str -> str) (bos : bool) (s : str) : str :=
  match fuel with
  | O => s
  | S fuel' =>
      match rmatch r bos s with
      | Some rest => repl (matched s rest) ++ sub_loop fuel' r repl false rest
      | None =>
          match s with
          | [] => []
          | c :: s' => c :: sub_loop fuel' r repl false s'
          end
      end
  end.

(** The scan of [re.findall] for a pattern without groups: the texts of
    the matches, leftmost first, not overlapping. *)
Fixpoint findall_loop (fuel : nat) (r : regex) (bos : bool) (s : str) : list str :=
  match fuel with
  | O => []
  | S fuel' =>
      match rmatch r bos s with
      | Some rest => matched s rest :: findall_loop fuel' r false rest
      | None =>
          match s with
          | [] => []
          | _ :: s' => findall_loop fuel' r false s'
          end
      end
  end.

(** [re.sub(pattern, repl, string)] with a callable [repl], which gets
    the matched text. *)
Definition re_sub (pattern : str) (repl : str -> str) (string : str) : result str :=
  match re_compile pattern with
  | inl e => inl e
  | inr r => inr (sub_loop (S (length string)) r repl true string)
  end.

(** [re.findall(pattern, string)]. *)
Definition re_findall (pattern : str) (string : str) : result (list str) :=
  match re_compile pattern with
  | inl e => inl e
  | inr r => inr (findall_loop (S (length string)) r true string)
  end.

(* ===================================================================== *)
(** * Input validation and templating *)
(* ===================================================================== *)

(** [validate_player]. *)
Definition validate_player (player : str) : result str :=
  if str_is_empty player then inl (NameError "Player ID is not defined")
  else
    match re_findall (u "^[\w-]+$") player with
    | inl e => inl e
    | inr found =>
        match found with
        | [] => inl (ValueError "Player is not an alphanumeric ID")
        | _ :: _ => inr player
        end
    end.

(** [prompt_input]: the f-string [rf"\$\{{\{{\s+{key}\s+\}}\}}"] is the
    text [\$\{\{\s+], the escaped key, and [\s+\}\}]. *)
Definition prompt_input (prompt key value : str) : result str :=
  let key := re_escape key in
  re_sub (u "\$\{\{\s+" ++ key ++ u "\s+\}\}") (fun _ => value) prompt.

End Re.

(* ===================================================================== *)
(** * JSON values and [validate_input] *)
(* ===================================================================== *)

(** The Python values [json.loads] builds.  A [dict] keeps its items in
    insertion order, each key once. *)
#[warnings="-register-all"]
Inductive pyobj : Type :=
| PyNone
| PyBool (b : bool)
| PyInt (z : Z)
| PyFloat (f : SpecFloat.spec_float)
| PyStr (s : str)
| PyList (elems : list pyobj)
| PyDict (items : list (str * pyobj)).

(** [isinstance(v, dict)]. *)
Definition isinstance_dict (v : pyobj) : bool :=
  match v with
  | PyDict _ => true
  | _ => false
  end.

(** [key in v] for a [dict] [v]. *)
Definition dict_contains (key : str) (v : pyobj) : bool :=
  match v with
  | PyDict items => existsb (fun kv => str_eqb (fst kv) key) items
  | _ => false
  end.


(** The four sections a battle input must have. *)
Definition required_keys : list str :=
  [u "player_data"; u "battle_state"; u "request_data"; u "failed_actions"].

Section Json.

(** [json.loads] and [json.dumps]; the module is not part of the
    repository. *)
Variable json_loads : str -> result pyobj.
Variable json_dumps : pyobj -> result str.

(** [validate_input].  The name [e] is bound by the [except] clause only,
    and unbound again when that clause ends; on the path where
    [json.loads] returned, [raise ValueError(...) from e] therefore fails
    while it evaluates [e], with [UnboundLocalError]. *)
Definition validate_input (input : str) : result str :=
  if str_is_empty input then inl (NameError "Input is not defined")
  else
    match json_loads input with
    | inl _ => inl (ValueError "Battle input is not valid JSON")
    | inr input =>
        if negb (isinstance_dict input) then
          inl (UnboundLocalError
                 "cannot access local variable 'e' where it is not associated with a value")
        else if negb (dict_contains (u "player_data") input) then
          inl (ValueError "Battle input is missing player data")
        else if negb (dict_contains (u "battle_state") input) then
          inl (ValueError "Battle input is missing battle state")
        else if negb (dict_contains (u "request_data") input) then
          inl (ValueError "Battle input is missing request data")
        else if negb (dict_contains (u "failed_actions") input) then
          inl (ValueError "Battle input is missing failed actions")
        else json_dumps input
    end.

End Json.

(* ===================================================================== *)
(** * The remote service *)
(* ===================================================================== *)

(** A [pathlib.Path], by its text. *)
Definition Path := str.

(** [types.Model]. *)
Module Model.
Record t : Type := Build {
  name : option str;
  input_token_limit : option Z
}.
End Model.

(** [types.File]. *)
Module File.
Record t : Type := Build {
  name : option str;
  display_name : option str;
  mime_type : option str
}.
End File.

(** [types.CachedContent]. *)
Module CachedContent.
Record t : Type := Build {
  name : option str;
  display_name : option str;
  model : option str
}.
End CachedContent.

(** [types.UploadFileConfig]. *)
Module UploadFileConfig.
Record t : Type := Build {
  display_name : option str;
  mime_type : option str
}.
End UploadFileConfig.

(** [types.CreateCachedContentConfig]. *)
Module CreateCachedContentConfig.
Record t : Type := Build {
  display_name : option str;
  system_instruction : option str;
  contents : option (list File.t);
  ttl : option str
}.
End CreateCachedContentConfig.

(** [types.GenerateContentConfig]: the two fields the program sets; every
    other field keeps its default [None]. *)
Module GenerateContentConfig.
Record t : Type := Build {
  system_instruction : option str;
  cached_content : option str
}.
End GenerateContentConfig.

(** [types.GenerateContentResponse]: its [text] is [None] when the
    response has no text part. *)
Module GenerateContentResponse.
Record t : Type := Build {
  text : option str
}.
End GenerateContentResponse.

(** One call to the remote service, with its arguments and its answer. *)
Inductive event : Type :=
| EvModelsGet (model : str) (answer : result Model.t)
| EvFilesList (answer : result (list File.t))
| EvFilesUpload (file : Path) (config : UploadFileConfig.t) (answer : result File.t)
| EvCachesList (answer : result (list CachedContent.t))
| EvCachesCreate (model : option str) (config : CreateCachedContentConfig.t)
                 (answer : result CachedContent.t)
| EvGenerateContent (model : option str) (contents : str)
                    (config : GenerateContentConfig.t)
                    (answer : result GenerateContentResponse.t).

(** The remote service behind [genai.Client], as a state machine over
    its own state: each operation answers with a value or an exception.
    [client.files.list()] and [client.caches.list()] return pagers; going
    through one is a single listing here, which answers with all the
    resources in the order the pager yields them. *)
Record Service (remote : Type) : Type := {
  models_get : str -> remote -> result Model.t * remote;
  files_list : remote -> result (list File.t) * remote;
  files_upload : Path -> UploadFileConfig.t -> remote -> result File.t * remote;
  caches_list : remote -> result (list CachedContent.t) * remote;
  caches_create : option str -> CreateCachedContentConfig.t -> remote
                  -> result CachedContent.t * remote;
  generate_content : option str -> str -> GenerateContentConfig.t -> remote
                     -> result GenerateContentResponse.t * remote
}.

(** The parts of [pathlib] and [mimetypes] the program uses, over the
    local file system. *)
Record LocalFS : Type := {
  rglob : Path -> list Path;
  is_file : Path -> bool;
  suffix : Path -> str;
  relative_to : Path -> Path -> str;
  guess_type : Path -> option str
}.

(** [Options], as [gemini_battler] reads it. *)
Record Options : Type := {
  player : str;
  input : str;
  use_cache : bool;
  data : option Path;
  use_data_files : bool
}.

(* ===================================================================== *)
(** * The reconciler and the orchestrator *)
(* ===================================================================== *)

Section Program.

Variable unicode_alnum : N -> bool.
Variable fs : LocalFS.
Variable remote : Type.
Variable client : Service remote.

(** The state a run threads: the remote service, and the calls made so
    far, oldest first. *)
Definition world : Type := (remote * list event)%type.

(** A computation that calls the service: it ends with a value or an
    exception, and in either case leaves a world behind. *)
Definition M (A : Type) : Type := world -> result A * world.

Definition ret {A} (a : A) : M A := fun w => (inr a, w).

Definition raise {A} (e : exn) : M A := fun w => (inl e, w).

Definition bind {A B} (c : M A) (k : A -> M B) : M B :=
  fun w =>
    match c w with
    | (inl e, w') => (inl e, w')
    | (inr a, w') => k a w'
    end.

Notation "x <- c ;; k" := (bind c (fun x => k))
  (at level 61, c at next level, right associativity).

(** A pure computation that may raise. *)
Definition lift {A} (r : result A) : M A :=
  match r with
  | inl e => raise e
  | inr a => ret a
  end.

(** One call: the service answers, and the call is logged. *)
Definition call {A} (op : remote -> result A * remote) (ev : result A -> event) : M A :=
  fun w =>
    let (answer, s') := op (fst w) in
    (answer, (s', snd w ++ [ev answer])).

Definition client_models_get (model : str) : M Model.t :=
  call (models_get client model) (EvModelsGet model).

Definition client_files_list : M (list File.t) :=
  call (files_list client) EvFilesList.

Definition client_files_upload (file : Path) (config : UploadFileConfig.t) : M File.t :=
  call (files_upload client file config) (EvFilesUpload file config).

Definition client_caches_list : M (list CachedContent.t) :=
  call (caches_list client) EvCachesList.

Definition client_caches_create (model : option str) (config : CreateCachedContentConfig.t)
  : M CachedContent.t :=
  call (caches_create client model config) (EvCachesCreate model config).

Definition client_models_generate_content (model : option str) (contents : str)
  (config : GenerateContentConfig.t) : M GenerateContentResponse.t :=
  call (generate_content client model contents config) (EvGenerateContent model contents config).

(** [file.display_name == display_name]. *)
Definition file_named (display_name : str) (file : File.t) : bool :=
  opt_str_eqb (File.display_name file) (Some display_name).

(** [cache.display_name == display_name]. *)
Definition cache_named (display_name : str) (cache : CachedContent.t) : bool :=
  opt_str_eqb (CachedContent.display_name cache) (Some display_name).

(** [ensure_file]: the loop returns the first listed file with the
    display name; without one the file is uploaded. *)
Definition ensure_file (display_name : str) (path : Path) : M File.t :=
  files <- client_files_list ;;
  match find (file_named display_name) files with
  | Some file => ret file
  | None =>
      let mime_type := guess_type fs path in
      client_files_upload path
        (UploadFileConfig.Build (Some display_name) mime_type)
  end.

(** The loop of [ensure_all_files_in_directory] over the paths of
    [dir.rglob("*")]. *)
Fixpoint ensure_paths (prefix : str) (dir : Path) (filter : Path -> bool)
  (paths : list Path) : M (list File.t) :=
  match paths with
  | [] => ret []
  | path :: paths' =>
      if is_file fs path && filter path then
        name <- lift (re_sub unicode_alnum (u "\W+") (fun _ => u "_")
                        (relative_to fs path dir)) ;;
        file <- ensure_file (prefix ++ u "_" ++ name) path ;;
        files <- ensure_paths prefix dir filter paths' ;;
        ret (file :: files)
      else ensure_paths prefix dir filter paths'
  end.

(** [ensure_all_files_in_directory]. *)
Definition ensure_all_files_in_directory (prefix : str) (dir : Path)
  (filter : Path -> bool) : M (list File.t) :=
  ensure_paths prefix dir filter (rglob fs dir).

(** [ensure_cache]. *)
Definition ensure_cache (model : option str) (display_name : str) (context : str)
  (files : option (list File.t)) : M CachedContent.t :=
  caches <- client_caches_list ;;
  match find (cache_named display_name) caches with
  | Some cache => ret cache
  | None =>
      client_caches_create model
        (CreateCachedContentConfig.Build (Some display_name) (Some context) files
           (Some (u "300s")))
  end.

(** [gemini_battler].  [not options.data] holds exactly when the data
    directory is [None]: a [Path] is always true. *)
Definition gemini_battler (options : Options) (context prompt : str) : M (option str) :=
  model <- client_models_get (u "models/gemini-2.5-flash") ;;
  files <-
    (if use_data_files options then
       if negb (use_cache options) then
         raise (ValueError "Caching must be enabled if using data files")
       else
         match data options with
         | None => raise (ValueError "Data directory must be defined if using data files")
         | Some dir =>
             files <- ensure_all_files_in_directory (u "data") dir
                        (fun path => str_eqb (suffix fs path) (u ".json")) ;;
             ret (Some files)
         end
     else ret None) ;;
  let config := GenerateContentConfig.Build (Some context) None in
  config <-
    (if use_cache options then
       cache <- ensure_cache (Model.name model) (u "battler") context files ;;
       ret (GenerateContentConfig.Build None (CachedContent.name cache))
     else ret config) ;;
  response <- client_models_generate_content (Model.name model) prompt config ;;
  ret (GenerateContentResponse.text response).

End Program.

(* ===================================================================== *)
(** * A reference reader and writer for JSON *)
(* ===================================================================== *)

(** An executable stand-in for [json.loads] and [json.dumps], used to run
    the program on concrete inputs.  It covers [null], [true], [false],
    [NaN], [Infinity], integers, strings with their escapes, arrays and
    objects, written as [json.dumps] writes them by default.  Numbers with
    a fraction or an exponent are outside it and are reported as errors. *)
Module MiniJson.

Definition json_ws (c : N) : bool :=
  ((c =? 32) || (c =? 9) || (c =? 10) || (c =? 13))%N.

Fixpoint skip_ws (s : str) : str :=
  match s with
  | c :: s' => if json_ws c then skip_ws s' else s
  | [] => []
  end.

Definition is_digit (c : N) : bool := ((48 <=? c) && (c <=? 57))%N.

(** The digits at the head of [s], read on top of [acc]. *)
Fixpoint read_digits (acc : N) (s : str) : N * str :=
  match s with
  | c :: s' => if is_digit c then read_digits (acc * 10 + (c - 48)) s' else (acc, s)
  | [] => (acc, [])
  end.

Definition hex_value (c : N) : option N :=
  if is_digit c then Some (c - 48)%N
  else if ((97 <=? c) && (c <=? 102))%N then Some (c - 87)%N
  else if ((65 <=? c) && (c <=? 70))%N then Some (c - 55)%N
  else None.

(** Four hexadecimal digits. *)
Definition read_hex4 (s : str) : option (N * str) :=
  match s with
  | a :: b :: c :: d :: s' =>
      match hex_value a, hex_value b, hex_value c, hex_value d with
      | Some x, Some y, Some z, Some w => Some (x * 4096 + y * 256 + z * 16 + w, s')%N
      | _, _, _, _ => None
      end
  | _ => None
  end.

Definition simple_escape (c : N) : option N :=
  if (c =? 34)%N then Some 34%N
  else if (c =? 92)%N then Some 92%N
  else if (c =? 47)%N then Some 47%N
  else if (c =? 98)%N then Some 8%N
  else if (c =? 102)%N then Some 12%N
  else if (c =? 110)%N then Some 10%N
  else if (c =? 114)%N then Some 13%N
  else if (c =? 116)%N then Some 9%N
  else None.

(** The body of a string literal, after its opening quote. *)
Fixpoint read_string (fuel : nat) (acc : str) (s : str) : option (str * str) :=
  match fuel with
  | O => None
  | S fuel' =>
      match s with
      | [] => None
      | c :: s1 =>
          if (c =? 34)%N then Some (rev acc, s1)
          else if (c <? 32)%N then None
          else if (c =? 92)%N then
            match s1 with
            | [] => None
            | e :: s2 =>
                if (e =? 117)%N then
                  match read_hex4 s2 with
                  | None => None
                  | Some (hi, s3) =>
                      if ((55296 <=? hi) && (hi <=? 56319))%N then
                        match s3 with
                        | 92%N :: 117%N :: s4 =>
                            match read_hex4 s4 with
                            | Some (lo, s5) =>
                                if ((56320 <=? lo) && (lo <=? 57343))%N
                                then read_string fuel'
                                       ((65536 + ((hi - 55296) * 1024 + (lo - 56320)))%N :: acc) s5
                                else read_string fuel' (hi :: acc) s3
                            | None => read_string fuel' (hi :: acc) s3
                            end
                        | _ => read_string fuel' (hi :: acc) s3
                        end
                      else read_string fuel' (hi :: acc) s3
                  end
                else
                  match simple_escape e with
                  | Some x => read_string fuel' (x :: acc) s2
                  | None => None
                  end
            end
          else read_string fuel' (c :: acc) s1
      end
  end.

(** [d[key] = value]: a key already there keeps its place. *)
Fixpoint dict_set (items : list (str * pyobj)) (key : str) (value : pyobj)
  : list (str * pyobj) :=
  match items with
  | [] => [(key, value)]
  | (k, v) :: items' =>
      if str_eqb k key then (k, value) :: items'
      else (k, v) :: dict_set items' key value
  end.

Definition starts_with (p s : str) : option str :=
  if str_eqb (firstn (length p) s) p then Some (skipn (length p) s) else None.

Definition is_float_mark (s : str) : bool :=
  match s with
  | c :: _ => ((c =? 46) || (c =? 101) || (c =? 69))%N
  | [] => false
  end.

(** An integer literal: an optional minus sign, then a zero or a
    non-zero digit followed by digits. *)
Definition read_int (s : str) : option (pyobj * str) :=
  let (neg, s1) :=
    match s with
    | c :: s' => if (c =? 45)%N then (true, s') else (false, s)
    | [] => (false, s)
    end in
  match s1 with
  | d :: s2 =>
      if (d =? 48)%N then
        if is_float_mark s2 then None else Some (PyInt 0, s2)
      else if is_digit d then
        let (n, rest) := read_digits 0 s1 in
        if is_float_mark rest then None
        else Some (PyInt (if neg then - Z.of_N n else Z.of_N n), rest)
      else None
  | [] => None
  end.

(** One value at the head of [s]; the elements of an array after its
    bracket; the members of an object after its brace. *)
Fixpoint read_value (fuel : nat) (s : str) : option (pyobj * str) :=
  match fuel with
  | O => None
  | S fuel' =>
      match s with
      | [] => None
      | c :: s1 =>
          if (c =? 34)%N then
            match read_string (S (length s1)) [] s1 with
            | Some (x, rest) => Some (PyStr x, rest)
            | None => None
            end
          else if (c =? 123)%N then
            match skip_ws s1 with
            | 125%N :: rest => Some (PyDict [], rest)
            | s2 => read_members fuel' [] s2
            end
          else if (c =? 91)%N then
            match skip_ws s1 with
            | 93%N :: rest => Some (PyList [], rest)
            | s2 => read_elements fuel' [] s2
            end
          else
            match starts_with (u "null") s with
            | Some rest => Some (PyNone, rest)
            | None =>
            match starts_with (u "true") s with
            | Some rest => Some (PyBool true, rest)
            | None =>
            match starts_with (u "false") s with
            | Some rest => Some (PyBool false, rest)
            | None =>
            match starts_with (u "NaN") s with
            | Some rest => Some (PyFloat SpecFloat.S754_nan, rest)
            | None =>
            match starts_with (u "Infinity") s with
            | Some rest => Some (PyFloat (SpecFloat.S754_infinity false), rest)
            | None =>
            match starts_with (u "-Infinity") s with
            | Some rest => Some (PyFloat (SpecFloat.S754_infinity true), rest)
            | None => read_int s
            end end end end end end
      end
  end
with read_elements (fuel : nat) (acc : list pyobj) (s : str) : option (pyobj * str) :=
  match fuel with
  | O => None
  | S fuel' =>
      match read_value fuel' s with
      | None => None
      | Some (v, rest) =>
          match skip_ws rest with
          | c :: rest' =>
              if (c =? 44)%N then read_elements fuel' (v :: acc) (skip_ws rest')
              else if (c =? 93)%N then Some (PyList (rev (v :: acc)), rest')
              else None
          | [] => None
          end
      end
  end
with read_members (fuel : nat) (acc : list (str * pyobj)) (s : str) : option (pyobj * str) :=
  match fuel with
  | O => None
  | S fuel' =>
      match s with
      | 34%N :: s1 =>
          match read_string (S (length s1)) [] s1 with
          | None => None
          | Some (key, rest) =>
              match skip_ws rest with
              | 58%N :: rest1 =>
                  match read_value fuel' (skip_ws rest1) with
                  | None => None
                  | Some (v, rest2) =>
                      match skip_ws rest2 with
                      | c :: rest3 =>
                          if (c =? 44)%N
                          then read_members fuel' (dict_set acc key v) (skip_ws rest3)
                          else if (c =? 125)%N then Some (PyDict (dict_set acc key v), rest3)
                          else None
                      | [] => None
                      end
                  end
              | _ => None
              end
          end
      | _ => None
      end
  end.

(** [json.loads(s)] on the fragment. *)
Definition loads (s : str) : result pyobj :=
  match read_value (S (length s)) (skip_ws s) with
  | Some (v, rest) =>
      match skip_ws rest with
      | [] => inr v
      | _ :: _ => inl (JSONDecodeError "Extra data")
      end
  | None => inl (JSONDecodeError "Expecting value")
  end.

Definition hex_digit (n : N) : N :=
  if (n <? 10)%N then (48 + n)%N else (87 + n)%N.

(** [\uXXXX] for a code unit. *)
Definition write_hex4 (n : N) : str :=
  [92; 117]%N ++ [hex_digit (n / 4096 mod 16); hex_digit (n / 256 mod 16);
                  hex_digit (n / 16 mod 16); hex_digit (n mod 16)]%N.

(** One character of a string, as [ensure_ascii] writes it. *)
Definition write_char (c : N) : str :=
  if (c =? 34)%N then u "\" ++ [34%N]
  else if (c =? 92)%N then u "\\"
  else if (c =? 10)%N then u "\n"
  else if (c =? 13)%N then u "\r"
  else if (c =? 9)%N then u "\t"
  else if (c =? 12)%N then u "\f"
  else if (c =? 8)%N then u "\b"
  else if ((32 <=? c) && (c <=? 126))%N then [c]
  else if (c <? 65536)%N then write_hex4 c
  else
    let v := (c - 65536)%N in
    write_hex4 (55296 + v / 1024) ++ write_hex4 (56320 + v mod 1024).

Definition write_string (s : str) : str :=
  [34%N] ++ flat_map write_char s ++ [34%N].

(** The decimal digits of [n], with [fuel] bounding their number. *)
Fixpoint write_digits (fuel : nat) (n : N) (acc : str) : str :=
  match fuel with
  | O => acc
  | S fuel' =>
      let acc' := (48 + n mod 10)%N :: acc in
      if (n <? 10)%N then acc' else write_digits fuel' (n / 10)%N acc'
  end.

Definition write_int (z : Z) : str :=
  let n := Z.abs_N z in
  let digits := write_digits (S (N.to_nat (N.log2 n))) n [] in
  if (z <? 0)%Z then 45%N :: digits else digits.

(** [json.dumps(v)]; a finite float is outside the fragment. *)
Fixpoint dumps (v : pyobj) : result str :=
  match v with
  | PyNone => inr (u "null")
  | PyBool true => inr (u "true")
  | PyBool false => inr (u "false")
  | PyInt z => inr (write_int z)
  | PyFloat SpecFloat.S754_nan => inr (u "NaN")
  | PyFloat (SpecFloat.S754_infinity false) => inr (u "Infinity")
  | PyFloat (SpecFloat.S754_infinity true) => inr (u "-Infinity")
  | PyFloat _ => inl (ValueError "float outside the modelled fragment")
  | PyStr s => inr (write_string s)
  | PyList elems =>
      let fix go (first : bool) (l : list pyobj) : result str :=
        match l with
        | [] => inr []
        | x :: l' =>
            match dumps x, go false l' with
            | inr a, inr b => inr ((if first then [] else u ", ") ++ a ++ b)
            | inl e, _ => inl e
            | _, inl e => inl e
            end
        end in
      match go true elems with
      | inr body => inr (u "[" ++ body ++ u "]")
      | inl e => inl e
      end
  | PyDict items =>
      let fix go (first : bool) (l : list (str * pyobj)) : result str :=
        match l with
        | [] => inr []
        | (k, x) :: l' =>
            match dumps x, go false l' with
            | inr a, inr b =>
                inr ((if first then [] else u ", ") ++ write_string k ++ u ": " ++ a ++ b)
            | inl e, _ => inl e
            | _, inl e => inl e
            end
        end in
      match go true items with
      | inr body => inr (u "{" ++ body ++ u "}")
      | inl e => inl e
      end
  end.

End MiniJson.

(** JSON text written with apostrophes for its double quotes, as a
    literal here cannot hold a double quote. *)
Definition json_text (s : string) : str :=
  map (fun c => if (c =? 39)%N then 34%N else c) (u s).

(* ===================================================================== *)
(** * An in-memory service and file system *)
(* ===================================================================== *)

(** A remote service kept in memory, used to run the program on concrete
    inputs: it lists what was created, in creation order, and answers
    every generation request with the same response. *)
Module MemoryService.

Record store : Type := Build {
  files : list File.t;
  caches : list CachedContent.t;
  reply : result GenerateContentResponse.t
}.

Definition upload (file : Path) (config : UploadFileConfig.t) (s : store)
  : result File.t * store :=
  let f := File.Build (Some (u "files/" ++ file))
             (UploadFileConfig.display_name config)
             (UploadFileConfig.mime_type config) in
  (inr f, Build (files s ++ [f]) (caches s) (reply s)).

Definition create (model : option str) (config : CreateCachedContentConfig.t) (s : store)
  : result CachedContent.t * store :=
  let c := CachedContent.Build (Some (u "cachedContents/1"))
             (CreateCachedContentConfig.display_name config) model in
  (inr c, Build (files s) (caches s ++ [c]) (reply s)).

Definition service : Service store := {|
  models_get := fun model s => (inr (Model.Build (Some model) (Some 1048576%Z)), s);
  files_list := fun s => (inr (files s), s);
  files_upload := upload;
  caches_list := fun s => (inr (caches s), s);
  caches_create := create;
  generate_content := fun _ _ _ s => (reply s, s)
|}.

(** Nothing uploaded, nothing cached. *)
Definition empty (r : result GenerateContentResponse.t) : store :=
  Build [] [] r.


End MemoryService.

(** A data directory with two JSON files and a text file. *)
Module SampleFS.

Definition ends_with (p s : str) : bool :=
  str_eqb (skipn (length s - length p) s) p.

Definition fs : LocalFS := {|
  rglob := fun dir => [dir ++ u "/moves.json"; dir ++ u "/notes.txt"; dir ++ u "/sub/items.json"];
  is_file := fun _ => true;
  suffix := fun path => if ends_with (u ".json") path then u ".json" else u ".txt";
  relative_to := fun path dir => skipn (S (length dir)) path;
  guess_type := fun path =>
    if ends_with (u ".json") path then Some (u "application/json") else Some (u "text/plain")
|}.

End SampleFS.

Definition sample_options (cache files : bool) (dir : option Path) : Options := {|
  player := u "p1";
  input := json_text "{'player_data': {}, 'battle_state': {}, 'request_data': {}, 'failed_actions': []}";
  use_cache := cache;
  data := dir;
  use_data_files := files
|}.

(** Sample files and a model. *)
Definition moves_file : File.t :=
  File.Build (Some (u "files/d/moves.json")) (Some (u "data_moves_json"))
    (Some (u "application/json")).

Definition moves_config : UploadFileConfig.t :=
  UploadFileConfig.Build (Some (u "data_moves_json")) (Some (u "application/json")).

Definition no_reply : result GenerateContentResponse.t :=
  inl (RemoteError "not asked").

Definition other_file : File.t :=
  File.Build (Some (u "files/1")) (Some (u "data_items_json")) None.

Definition moves_copy : File.t :=
  File.Build (Some (u "files/3")) (Some (u "data_moves_json")) None.

Definition flash : Model.t :=
  Model.Build (Some (u "models/gemini-2.5-flash")) (Some 1048576%Z).

(* ===================================================================== *)
(** * Options, the templates and [run] *)
(* ===================================================================== *)

(** The exceptions of reading a local file. *)
Inductive io_exn : Type :=
| FileNotFoundError (msg : str)
| OSError (msg : str)
| UnicodeDecodeError (msg : str).

(** The parts of [pathlib] that [validate_data] and [read_file] use, over
    the local file system: [path.exists()], [path.is_dir()], [dir / file]
    and [path.open().read()]. *)
Record Disk : Type := {
  path_exists : Path -> bool;
  is_dir : Path -> bool;
  joinpath : Path -> str -> Path;
  read_text : Path -> io_exn + str
}.

(** The parsed command line, as [Options.__init__] reads it: [player],
    [input] and [data] are [None] when their flag is not given. *)
Record Args : Type := {
  args_player : option str;
  args_input : option str;
  args_use_cache : bool;
  args_data : option Path;
  args_use_data_files : bool
}.

(** What a run fails with: an exception of reading a template, or one of
    the exceptions of the validators, the renderer and the orchestrator. *)
Inductive failure : Type :=
| IOFailure (e : io_exn)
| Failure (e : exn).

Section Setup.

Variable unicode_alnum : N -> bool.
Variable json_loads : str -> result pyobj.
Variable json_dumps : pyobj -> result str.
Variable disk : Disk.

(** [validate_data].  Its first test, [not data], never holds: a [Path]
    is always true. *)
Definition validate_data (data : Path) : result Path :=
  if negb (path_exists disk data) then inl (ValueError "Data directory does not exist")
  else if negb (is_dir disk data) then inl (ValueError "Data directory is not a directory")
  else inr data.

(** [Options.__init__].  [validate_player(None)] and [validate_input(None)]
    fail as on the empty string: [not None] holds.  [args.data] is tested
    for truth, which for a path means it is not [None]. *)
Definition Options_init (args : Args) : result Options :=
  match
    match args_player args with
    | None => inl (NameError "Player ID is not defined")
    | Some player => validate_player unicode_alnum player
    end
  with
  | inl e => inl e
  | inr player =>
      match
        match args_input args with
        | None => inl (NameError "Input is not defined")
        | Some input => validate_input json_loads json_dumps input
        end
      with
      | inl e => inl e
      | inr input =>
          match
            match args_data args with
            | Some data =>
                match validate_data data with
                | inl e => inl e
                | inr data => inr (Some data)
                end
            | None => inr None
            end
          with
          | inl e => inl e
          | inr data =>
              inr {| player := player;
                     input := input;
                     use_cache := args_use_cache args;
                     data := data;
                     use_data_files := args_use_data_files args |}
          end
      end
  end.

(** [read_file]. *)
Definition read_file (dir : Path) (file : str) : io_exn + str :=
  let path := joinpath disk dir file in
  if negb (path_exists disk path)
  then inl (FileNotFoundError (u "File " ++ file ++ u " does not exist"))
  else read_text disk path.

Variable fs : LocalFS.
Variable remote : Type.
Variable client : Service remote.

(** [run].  [binary_dir] is [options.binary_dir], the directory of the
    program; [load_dotenv] only fills the process environment.  The result
    is the output the run prints. *)
Definition run (binary_dir : Path) (options : Options)
  : world remote -> (failure + option str) * world remote :=
  fun w =>
    match read_file binary_dir (u "context.md") with
    | inl e => (inl (IOFailure e), w)
    | inr context =>
        match read_file binary_dir (u "prompt.md") with
        | inl e => (inl (IOFailure e), w)
        | inr prompt =>
            match prompt_input unicode_alnum prompt (u "PLAYER") (player options) with
            | inl e => (inl (Failure e), w)
            | inr prompt =>
                match prompt_input unicode_alnum prompt (u "INPUT") (input options) with
                | inl e => (inl (Failure e), w)
                | inr prompt =>
                    match gemini_battler unicode_alnum fs client options context prompt w with
                    | (inl e, w') => (inl (Failure e), w')
                    | (inr output, w') => (inr output, w')
                    end
                end
            end
        end
    end.

End Setup.

(** A program directory with the two templates, next to a data directory
    and a plain file. *)
Module SampleDisk.

Definition disk : Disk := {|
  path_exists := fun path =>
    str_eqb path (u "bin/context.md") || str_eqb path (u "bin/prompt.md")
    || str_eqb path (u "d") || str_eqb path (u "notes.txt");
  is_dir := fun path => str_eqb path (u "d");
  joinpath := fun dir file => dir ++ u "/" ++ file;
  read_text := fun path =>
    if str_eqb path (u "bin/context.md") then inr (u "You play ${{ PLAYER }}.")
    else if str_eqb path (u "bin/prompt.md")
         then inr (u "Player ${{ PLAYER }}, state: ${{ INPUT }}")
         else inl (OSError (u "Is a directory"))
|}.

(** The same directory without [prompt.md]. *)
Definition no_prompt : Disk := {|
  path_exists := fun path => str_eqb path (u "bin/context.md");
  is_dir := fun _ => false;
  joinpath := fun dir file => dir ++ u "/" ++ file;
  read_text := fun _ => inr (u "You play ${{ PLAYER }}.")
|}.

End SampleDisk.

Definition sample_input : str :=
  json_text "{'player_data': {}, 'battle_state': {}, 'request_data': {}, 'failed_actions': []}".

Definition sample_args (dir : option Path) : Args := {|
  args_player := Some (u "p1");
  args_input := Some sample_input;
  args_use_cache := true;
  args_data := dir;
  args_use_data_files := false
|}.

(** A data directory where two files differ only in a character that is
    not a word character. *)
Definition colliding_fs : LocalFS := {|
  rglob := fun dir => [dir ++ u "/a b.json"; dir ++ u "/a_b.json"];
  is_file := fun _ => true;
  suffix := fun _ => u ".json";
  relative_to := fun path dir => skipn (S (length dir)) path;
  guess_type := fun _ => Some (u "application/json")
|}.

Definition colliding_file : File.t :=
  File.Build (Some (u "files/d/a b.json")) (Some (u "data_a_b_json"))
    (Some (u "application/json")).

Definition battler_cache : CachedContent.t :=
  CachedContent.Build (Some (u "cachedContents/1")) (Some (u "battler"))
    (Some (u "models/gemini-2.5-flash")).

(* ===================================================================== *)
(** * Vocabulary of the statements *)
(* ===================================================================== *)

Definition literal_node (c : N) : node := CHARS (LITERAL c) ONCE.

(** What [prompt_input]'s pattern compiles to for a key. *)
Definition placeholder_regex (key : str) : regex :=
  [literal_node 36; literal_node 123; literal_node 123;
   CHARS (CATEGORY CATEGORY_SPACE) MAX_REPEAT_1]
  ++ map literal_node key
  ++ [CHARS (CATEGORY CATEGORY_SPACE) MAX_REPEAT_1; literal_node 125; literal_node 125].

(** What [validate_player]'s pattern compiles to. *)
Definition player_regex : regex :=
  [AT_BEGINNING; CHARS (IN [SetCategory CATEGORY_WORD; SetLiteral 45]) MAX_REPEAT_1; AT_END].

(** A run of one or more whitespace characters. *)
Definition ws_run (w : str) : Prop :=
  w <> [] /\ forallb Py_UNICODE_ISSPACE w = true.

(** A placeholder for [key]: the three characters [${{], whitespace, the
    key itself, whitespace, and [}}]. *)
Definition Placeholder (key ph : str) : Prop :=
  exists w1 w2, ws_run w1 /\ ws_run w2 /\ ph = u "${{" ++ w1 ++ key ++ w2 ++ u "}}".

(** A placeholder for [key] begins at offset [n] of [t]. *)
Definition occurs_at (key t : str) (n : nat) : Prop :=
  exists pre ph post, t = pre ++ ph ++ post /\ length pre = n /\ Placeholder key ph.

(** [Rendered key value t out]: [out] is [t] with its placeholders for
    [key] replaced by [value], taken leftmost first: the text up to the
    first placeholder is kept, the placeholder becomes the value, and the
    text after the placeholder is rendered in the same way. *)
Inductive Rendered (key value : str) : str -> str -> Prop :=
| Rendered_rest (t : str) :
    (forall n, ~ occurs_at key t n) ->
    Rendered key value t t
| Rendered_first (a ph b out : str) :
    Placeholder key ph ->
    (forall n, n < length a -> ~ occurs_at key (a ++ ph ++ b) n) ->
    Rendered key value b out ->
    Rendered key value (a ++ ph ++ b) (a ++ value ++ out).

(** A character of a player identifier as the code reads it: a word
    character or a hyphen. *)
Definition player_char (unicode_alnum : N -> bool) (c : N) : bool :=
  is_word unicode_alnum c || (c =? 45)%N.

(** The token list starts with a [+]. *)
Definition starts_with_plus (ts : list token) : bool :=
  match ts with
  | TPlus :: _ => true
  | _ => false
  end.

(** The call is a generation request. *)
Definition is_generate (ev : event) : bool :=
  match ev with
  | EvGenerateContent _ _ _ _ => true
  | _ => false
  end.

(** No generation request among the calls. *)
Definition no_generate (evs : list event) : Prop :=
  forallb (fun ev => negb (is_generate ev)) evs = true.

(** Among the calls [evs], [cache] is what reconciling the cache named
    [display_name] gave: the first cache of that name in a listing, or
    the answer to a creation request. *)
Definition reconciled (display_name : str) (cache : CachedContent.t) (evs : list event)
  : Prop :=
  (exists caches, In (EvCachesList (inr caches)) evs
                  /\ find (cache_named display_name) caches = Some cache)
  \/ (exists model config, In (EvCachesCreate model config (inr cache)) evs).

(** A computation that, from any world, only adds calls to the log, none
    of them a generation request. *)
Definition quiet {remote A : Type} (c : M remote A) : Prop :=
  forall s log, exists r s' evs,
    c (s, log) = (r, (s', log ++ evs)) /\ no_generate evs.

(** The generation configuration the orchestrator must build: with the
    cache in use, a reference to the reconciled cache and nothing inline;
    without it, the context inline and no cache. *)
Definition config_for (options : Options) (context : str)
  (config : GenerateContentConfig.t) (evs : list event) : Prop :=
  if use_cache options then
    exists cache, reconciled (u "battler") cache evs
                  /\ config = GenerateContentConfig.Build None (CachedContent.name cache)
  else config = GenerateContentConfig.Build (Some context) None.

(** What the orchestrator returns once the generation call has answered. *)
Definition generation_outcome (answer : result GenerateContentResponse.t)
  : result (option str) :=
  match answer with
  | inl e => inl e
  | inr response => inr (GenerateContentResponse.text response)
  end.


(** What the pattern [\W+] compiles to. *)
Definition non_word_regex : regex :=
  [CHARS (CATEGORY CATEGORY_NOT_WORD) MAX_REPEAT_1].

(** The call is a file listing or an upload. *)
Definition is_files_event (ev : event) : bool :=
  match ev with
  | EvFilesList _ | EvFilesUpload _ _ _ => true
  | _ => false
  end.

(** The call is a file listing. *)
Definition is_files_list (ev : event) : bool :=
  match ev with
  | EvFilesList _ => true
  | _ => false
  end.

(** The call is an upload. *)
Definition is_files_upload (ev : event) : bool :=
  match ev with
  | EvFilesUpload _ _ _ => true
  | _ => false
  end.


(** The exception a call was answered with, if any. *)
Definition event_error (ev : event) : option exn :=
  match ev with
  | EvModelsGet _ (inl e) | EvFilesList (inl e) | EvFilesUpload _ _ (inl e)
  | EvCachesList (inl e) | EvCachesCreate _ _ (inl e)
  | EvGenerateContent _ _ _ (inl e) => Some e
  | _ => None
  end.

(** The file is one the calls [evs] returned: a file of a listing, or the
    answer to an upload. *)
Definition file_from_events (evs : list event) (file : File.t) : Prop :=
  (exists files, In (EvFilesList (inr files)) evs /\ In file files)
  \/ (exists path config, In (EvFilesUpload path config (inr file)) evs).

(** The paths [ensure_all_files_in_directory] takes: regular files that
    pass the filter. *)
Definition selected_paths (fs : LocalFS) (filter : Path -> bool) (paths : list Path)
  : list Path :=
  List.filter (fun path => is_file fs path && filter path) paths.

(** A call [ensure_all_files_in_directory] may make: a listing, or the
    upload of a selected path of the directory under a display name made
    of the prefix, an underscore and word characters, the relative path
    itself when that has word characters only, and with the type guessed
    from the path. *)
Definition directory_call (unicode_alnum : N -> bool) (fs : LocalFS) (prefix : str)
  (dir : Path) (filter : Path -> bool) (paths : list Path) (ev : event) : Prop :=
  match ev with
  | EvFilesList _ => True
  | EvFilesUpload path config _ =>
      In path paths /\ is_file fs path = true /\ filter path = true
      /\ exists name,
           config = UploadFileConfig.Build (Some (prefix ++ u "_" ++ name))
                      (guess_type fs path)
           /\ forallb (is_word unicode_alnum) name = true
           /\ (forallb (is_word unicode_alnum) (relative_to fs path dir) = true ->
               name = relative_to fs path dir)
  | _ => False
  end.

(** The filter [gemini_battler] passes: [path.suffix == ".json"]. *)
Definition is_json_file (fs : LocalFS) (path : Path) : bool :=
  str_eqb (suffix fs path) (u ".json").

(** The calls of one [ensure_cache] for the cache of the orchestrator: a
    listing that fails, a listing that holds a cache named battler, or a
    listing without one followed by the creation request. *)
Definition cache_phase (model : option str) (context : str)
  (contents : option (list File.t)) (evs : list event) : Prop :=
  (exists e, evs = [EvCachesList (inl e)])
  \/ (exists caches cache,
         evs = [EvCachesList (inr caches)]
         /\ find (cache_named (u "battler")) caches = Some cache)
  \/ (exists caches answer,
         evs = [EvCachesList (inr caches);
                EvCachesCreate model
                  (CreateCachedContentConfig.Build (Some (u "battler")) (Some context)
                     contents (Some (u "300s")))
                  answer]
         /\ find (cache_named (u "battler")) caches = None).

(** The [files] the orchestrator hands to [ensure_cache] after the file
    calls [evs]: with data files in use, one file per JSON file of the
    data directory, each returned by one of the calls; otherwise
    [None]. *)
Definition data_contents (fs : LocalFS) (options : Options) (evs : list event)
  (contents : option (list File.t)) : Prop :=
  if use_data_files options then
    exists dir files,
      data options = Some dir /\ contents = Some files
      /\ length files = length (selected_paths fs (is_json_file fs) (rglob fs dir))
      /\ Forall (file_from_events evs) files
  else contents = None.

(** A computation that stops at the first call that raises, with that
    exception: in every run, a call answered with an exception is the
    last call, and its exception is the outcome. *)
Definition strict {remote A : Type} (c : M remote A) : Prop :=
  forall s log, exists r s' evs,
    c (s, log) = (r, (s', log ++ evs))
    /\ forall before ev after e,
         evs = before ++ ev :: after -> event_error ev = Some e ->
         after = [] /\ r = inl e.

(* ===================================================================== *)
(** * Facts about strings and patterns *)
(* ===================================================================== *)

Unset Implicit Arguments.

Lemma str_eqb_refl (s : str) : str_eqb s s = true.
Proof.
  induction s as [|c s IH]; simpl; [reflexivity|].
  now rewrite N.eqb_refl, IH.
Qed.

Lemma str_eqb_eq (a b : str) : str_eqb a b = true <-> a = b.
Proof.
  split; [|intros ->; apply str_eqb_refl].
  revert b; induction a as [|x a IH]; intros [|y b]; simpl; try discriminate; auto.
  intros H. apply andb_true_iff in H as [Hx Hab].
  apply N.eqb_eq in Hx. apply IH in Hab. now subst.
Qed.

Lemma opt_str_eqb_eq (a b : option str) : opt_str_eqb a b = true <-> a = b.
Proof.
  destruct a as [x|], b as [y|]; simpl; split; intros H;
    try discriminate; try reflexivity.
  - f_equal. now apply str_eqb_eq.
  - apply str_eqb_eq. congruence.
Qed.

(** A special character is escaped to itself: it names no category and
    is no ASCII letter or digit. *)
Lemma special_is_literal (c : N) :
  is_re_special c = true -> parse_escape c = inr (LITERAL c).
Proof.
  unfold is_re_special, re_special_chars. cbn [existsb]. intros H.
  repeat (apply orb_true_iff in H; destruct H as [H|H]);
    try discriminate H; apply N.eqb_eq in H; subst c; reflexivity.
Qed.

(** A character that is not special stands for itself in a pattern. *)
Lemma tokenize_plain (c : N) (s : str) :
  is_re_special c = false ->
  tokenize (c :: s) = cons_token (TChars (LITERAL c)) (tokenize s).
Proof.
  unfold is_re_special, re_special_chars. cbn [existsb]. intros H.
  repeat (apply orb_false_iff in H; destruct H as [?E H]).
  cbn [tokenize existsb].
  repeat match goal with E : (c =? _)%N = false |- _ => rewrite ?E; clear E end.
  reflexivity.
Qed.

(** The escaped key tokenizes to the key's characters, one literal each,
    whatever they are. *)
Lemma tokenize_escaped (key rest : str) (ts : list token) :
  tokenize rest = inr ts ->
  tokenize (re_escape key ++ rest)
  = inr (map (fun c => TChars (LITERAL c)) key ++ ts).
Proof.
  intros Hrest. induction key as [|c key IH]; [exact Hrest|].
  unfold re_escape in *. cbn [flat_map map]. rewrite <- app_assoc.
  destruct (is_re_special c) eqn:Hc.
  - cbn [app tokenize]. rewrite (special_is_literal c Hc), IH. reflexivity.
  - cbn [app]. rewrite (tokenize_plain _ _ Hc), IH. reflexivity.
Qed.

(** Literal tokens that no [+] follows become literal nodes. *)
Lemma attach_literals (key : str) (ts : list token) (r : regex) :
  attach ts = inr r -> starts_with_plus ts = false ->
  attach (map (fun c => TChars (LITERAL c)) key ++ ts)
  = inr (map literal_node key ++ r).
Proof.
  intros Hts Hplus. induction key as [|c key IH]; [exact Hts|].
  cbn [map app]. destruct key as [|c' key].
  - cbn [map app] in *. destruct ts as [|[cs| | |] ts]; try discriminate Hplus;
      cbn [attach] in *; rewrite ?Hts; try rewrite IH; reflexivity.
  - cbn [map app] in *. cbn [attach]. cbn [attach] in IH. rewrite IH. reflexivity.
Qed.

(** The pattern of [prompt_input] always compiles, and the key stands in
    it character for character. *)
Lemma compile_placeholder (key : str) :
  re_compile (u "\$\{\{\s+" ++ re_escape key ++ u "\s+\}\}")
  = inr (placeholder_regex key).
Proof.
  unfold re_compile.
  assert (Htok : tokenize (u "\$\{\{\s+" ++ re_escape key ++ u "\s+\}\}")
                 = inr ([TChars (LITERAL 36); TChars (LITERAL 123); TChars (LITERAL 123);
                         TChars (CATEGORY CATEGORY_SPACE); TPlus]
                        ++ map (fun c => TChars (LITERAL c)) key
                        ++ [TChars (CATEGORY CATEGORY_SPACE); TPlus;
                            TChars (LITERAL 125); TChars (LITERAL 125)])).
  { change (u "\$\{\{\s+") with [92; 36; 92; 123; 92; 123; 92; 115; 43]%N.
    cbn [app tokenize N.eqb Pos.eqb parse_escape category_of_letter ascii_alnum].
    rewrite (tokenize_escaped key (u "\s+\}\}")
               [TChars (CATEGORY CATEGORY_SPACE); TPlus;
                TChars (LITERAL 125); TChars (LITERAL 125)])
      by reflexivity.
    reflexivity. }
  rewrite Htok. cbn [app attach].
  rewrite (attach_literals key
             [TChars (CATEGORY CATEGORY_SPACE); TPlus;
              TChars (LITERAL 125); TChars (LITERAL 125)]
             [CHARS (CATEGORY CATEGORY_SPACE) MAX_REPEAT_1;
              literal_node 125; literal_node 125]);
    reflexivity.
Qed.

Lemma compile_player :
  re_compile (u "^[\w-]+$") = inr player_regex.
Proof. reflexivity. Qed.

Section MatchFacts.

Variable unicode_alnum : N -> bool.

Lemma repeat_more_sound (p : N -> bool) (k : str -> option str) (s rest : str) :
  repeat_more p k s = Some rest ->
  exists w s', s = w ++ s' /\ forallb p w = true /\ k s' = Some rest.
Proof.
  revert rest. induction s as [|c s IH]; intros rest H.
  - exists [], []. auto.
  - cbn [repeat_more] in H. destruct (p c) eqn:Hc.
    + destruct (repeat_more p k s) as [r|] eqn:Hr.
      * injection H as <-. destruct (IH r eq_refl) as (w & s' & -> & Hw & Hk).
        exists (c :: w), s'. cbn. rewrite Hc. auto.
      * exists [], (c :: s). auto.
    + exists [], (c :: s). auto.
Qed.

(** The continuation succeeds somewhere along the run, so the repetition
    finds a match. *)
Lemma repeat_more_complete (p : N -> bool) (k : str -> option str) (w s' rest : str) :
  forallb p w = true -> k s' = Some rest ->
  exists rest', repeat_more p k (w ++ s') = Some rest'.
Proof.
  intros Hw Hk. induction w as [|c w IH].
  - cbn [app]. destruct s' as [|d s']; cbn [repeat_more]; [eauto|].
    destruct (p d); [|eauto].
    destruct (repeat_more p k s'); eauto.
  - cbn [forallb] in Hw. apply andb_true_iff in Hw as [Hc Hw].
    destruct (IH Hw) as [r Hr]. exists r.
    cbn [app repeat_more]. now rewrite Hc, Hr.
Qed.

(** A run that ends at a character [p] refuses: the repetition takes the
    whole run when the continuation succeeds there. *)
Lemma repeat_more_stop (p : N -> bool) (k : str -> option str) (w : str) (d : N)
  (s rest : str) :
  forallb p w = true -> p d = false -> k (d :: s) = Some rest ->
  repeat_more p k (w ++ d :: s) = Some rest.
Proof.
  intros Hw Hd Hk. induction w as [|c w IH].
  - cbn [app repeat_more]. now rewrite Hd.
  - cbn [forallb] in Hw. apply andb_true_iff in Hw as [Hc Hw].
    cbn [app repeat_more]. now rewrite Hc, (IH Hw).
Qed.

(** A run that reaches the end of the subject. *)
Lemma repeat_more_all (p : N -> bool) (k : str -> option str) (s rest : str) :
  forallb p s = true -> k [] = Some rest -> repeat_more p k s = Some rest.
Proof.
  intros Hs Hk. induction s as [|c s IH]; [exact Hk|].
  cbn [forallb] in Hs. apply andb_true_iff in Hs as [Hc Hs].
  cbn [repeat_more]. now rewrite Hc, (IH Hs).
Qed.

Lemma rmatch_literals_app (key : str) (r : regex) (s : str) :
  rmatch unicode_alnum (map literal_node key ++ r) false (key ++ s)
  = rmatch unicode_alnum r false s.
Proof.
  induction key as [|c key IH]; [reflexivity|].
  cbn [map app literal_node rmatch charset_test]. now rewrite N.eqb_refl.
Qed.

Lemma rmatch_literals_inv (key : str) (r : regex) (s rest : str) :
  rmatch unicode_alnum (map literal_node key ++ r) false s = Some rest ->
  exists s', s = key ++ s' /\ rmatch unicode_alnum r false s' = Some rest.
Proof.
  revert s. induction key as [|c key IH]; intros s H.
  - exists s. auto.
  - destruct s as [|x s]; cbn [map app literal_node rmatch charset_test] in H;
      [discriminate|].
    destruct (x =? c)%N eqn:Hx; [|discriminate]. apply N.eqb_eq in Hx. subst x.
    destruct (IH s H) as (s' & -> & Hr). exists s'. auto.
Qed.

(** Two ways of cutting a string into a run of [p] and a first character
    outside [p] agree. *)
Lemma span_unique (p : N -> bool) (l1 l2 : str) (c d : N) (r1 r2 : str) :
  forallb p l1 = true -> forallb p l2 = true -> p c = false -> p d = false ->
  l1 ++ c :: r1 = l2 ++ d :: r2 -> l1 = l2 /\ c = d /\ r1 = r2.
Proof.
  revert l2. induction l1 as [|x l1 IH]; intros [|y l2] H1 H2 Hc Hd E;
    cbn [app forallb] in *.
  - injection E as -> ->. auto.
  - injection E as -> _. apply andb_true_iff in H2 as [H2 _]. congruence.
  - injection E as -> _. apply andb_true_iff in H1 as [H1 _]. congruence.
  - injection E as -> E.
    apply andb_true_iff in H1 as [_ H1]. apply andb_true_iff in H2 as [_ H2].
    destruct (IH l2 H1 H2 Hc Hd E) as (-> & -> & ->). auto.
Qed.

(** A string is all of [p], or has a first character outside [p]. *)
Lemma span_split (p : N -> bool) (s : str) :
  forallb p s = true
  \/ exists l c r, s = l ++ c :: r /\ forallb p l = true /\ p c = false.
Proof.
  induction s as [|x s IH]; [now left|].
  destruct (p x) eqn:Hx.
  - destruct IH as [IH|(l & c & r & -> & Hl & Hc)].
    + left. cbn. now rewrite Hx.
    + right. exists (x :: l), c, r. cbn. rewrite Hx. auto.
  - right. exists [], x, s. auto.
Qed.

Lemma forallb_app_true (p : N -> bool) (a b : str) :
  forallb p a = true -> forallb p b = true -> forallb p (a ++ b) = true.
Proof. intros Ha Hb. rewrite forallb_app. now rewrite Ha, Hb. Qed.

(** What a placeholder's text leaves behind is determined by the text. *)
Lemma placeholder_rest_unique (key w1 w2 w1' w2' rest rest' : str) :
  ws_run w1 -> ws_run w2 -> ws_run w1' -> ws_run w2' ->
  w1 ++ key ++ w2 ++ u "}}" ++ rest = w1' ++ key ++ w2' ++ u "}}" ++ rest' ->
  rest = rest'.
Proof.
  intros [_ H1] [_ H2] [_ H1'] [_ H2'] E.
  change (u "}}") with [125; 125]%N in E. cbn [app] in E.
  assert (Hbrace : Py_UNICODE_ISSPACE 125 = false) by reflexivity.
  destruct (span_split Py_UNICODE_ISSPACE key) as [Hk|(kw & c & kr & -> & Hkw & Hc)].
  - rewrite !app_assoc in E.
    apply span_unique with (p := Py_UNICODE_ISSPACE) in E;
      auto using forallb_app_true.
    destruct E as (_ & _ & E). now injection E.
  - rewrite <- !app_assoc in E. cbn [app] in E.
    rewrite (app_assoc w1), (app_assoc w1') in E.
    apply span_unique with (p := Py_UNICODE_ISSPACE) in E;
      auto using forallb_app_true.
    destruct E as (_ & _ & E). apply app_inv_head in E.
    apply span_unique with (p := Py_UNICODE_ISSPACE) in E; auto.
    destruct E as (_ & _ & E). now injection E.
Qed.

(** The end of the placeholder pattern: whitespace, then [}}]. *)
Lemma tail_sound (s rest : str) :
  rmatch unicode_alnum
    [CHARS (CATEGORY CATEGORY_SPACE) MAX_REPEAT_1; literal_node 125; literal_node 125]
    false s = Some rest ->
  exists w2, ws_run w2 /\ s = w2 ++ u "}}" ++ rest.
Proof.
  intros H. destruct s as [|c s]; cbn [rmatch charset_test category_test] in H;
    [discriminate|].
  destruct (Py_UNICODE_ISSPACE c) eqn:Hc; [|discriminate].
  apply repeat_more_sound in H as (w & s' & -> & Hw & H).
  destruct s' as [|x [|y s']]; cbn [rmatch literal_node charset_test] in H;
    try discriminate.
  - destruct (x =? 125)%N; discriminate.
  - destruct (x =? 125)%N eqn:Hx; [|discriminate].
    destruct (y =? 125)%N eqn:Hy; [|discriminate].
    apply N.eqb_eq in Hx, Hy. subst. injection H as <-.
    exists (c :: w). split; [split; [discriminate|]|reflexivity].
    cbn. now rewrite Hc.
Qed.

Lemma tail_complete (w2 rest : str) :
  ws_run w2 ->
  rmatch unicode_alnum
    [CHARS (CATEGORY CATEGORY_SPACE) MAX_REPEAT_1; literal_node 125; literal_node 125]
    false (w2 ++ u "}}" ++ rest) = Some rest.
Proof.
  intros [Hne Hw]. destruct w2 as [|c w2]; [congruence|].
  cbn [forallb] in Hw. apply andb_true_iff in Hw as [Hc Hw].
  cbn [app rmatch charset_test category_test]. rewrite Hc.
  change (u "}}" ++ rest) with (125%N :: 125%N :: rest).
  now apply repeat_more_stop.
Qed.

(** A match of the placeholder pattern is a placeholder. *)
Lemma placeholder_sound (key : str) (bos : bool) (s rest : str) :
  rmatch unicode_alnum (placeholder_regex key) bos s = Some rest ->
  exists w1 w2, ws_run w1 /\ ws_run w2
                /\ s = u "${{" ++ w1 ++ key ++ w2 ++ u "}}" ++ rest.
Proof.
  unfold placeholder_regex. intros H.
  destruct s as [|a [|b [|c [|d s]]]];
    cbn [app rmatch literal_node charset_test category_test] in H;
    try discriminate;
    repeat match type of H with
           | (if ?x then _ else _) = _ => destruct x eqn:?; [|discriminate]
           end; try discriminate.
  apply N.eqb_eq in Heqb0, Heqb1, Heqb2. subst a b c.
  apply repeat_more_sound in H as (w & s' & -> & Hw & H).
  apply rmatch_literals_inv in H as (s'' & -> & H).
  apply tail_sound in H as (w2 & Hw2 & ->).
  exists (d :: w), w2. split; [split; [discriminate|]|split; [exact Hw2|reflexivity]].
  cbn. now rewrite Heqb3.
Qed.

(** A placeholder at the head of the subject is matched, and exactly it. *)
Lemma placeholder_complete (key : str) (bos : bool) (w1 w2 rest : str) :
  ws_run w1 -> ws_run w2 ->
  rmatch unicode_alnum (placeholder_regex key) bos
    (u "${{" ++ w1 ++ key ++ w2 ++ u "}}" ++ rest) = Some rest.
Proof.
  intros Hw1 Hw2.
  assert (Hsome : exists rest',
             rmatch unicode_alnum (placeholder_regex key) bos
               (u "${{" ++ w1 ++ key ++ w2 ++ u "}}" ++ rest) = Some rest').
  { destruct Hw1 as [Hne Hw]. destruct w1 as [|c w1]; [congruence|].
    cbn [forallb] in Hw. apply andb_true_iff in Hw as [Hc Hw].
    unfold placeholder_regex.
    change (u "${{") with [36; 123; 123]%N.
    cbn [app rmatch literal_node charset_test category_test N.eqb Pos.eqb].
    rewrite Hc.
    apply repeat_more_complete with (rest := rest); [exact Hw|].
    rewrite rmatch_literals_app. now apply tail_complete. }
  destruct Hsome as [rest' H]. rewrite H. f_equal.
  apply placeholder_sound in H as (w1' & w2' & Hw1' & Hw2' & E).
  apply app_inv_head in E. symmetry.
  now apply (placeholder_rest_unique key w1 w2 w1' w2').
Qed.

(** The pattern has no anchor: where the subject starts does not matter. *)
Lemma placeholder_bos (key : str) (bos : bool) (s : str) :
  rmatch unicode_alnum (placeholder_regex key) bos s
  = rmatch unicode_alnum (placeholder_regex key) false s.
Proof. reflexivity. Qed.

(** A match takes at least the key and seven more characters. *)
Lemma placeholder_length (key : str) (bos : bool) (s rest : str) :
  rmatch unicode_alnum (placeholder_regex key) bos s = Some rest ->
  length rest + length key + 7 <= length s.
Proof.
  intros H. apply placeholder_sound in H as (w1 & w2 & [H1 _] & [H2 _] & ->).
  rewrite !length_app. change (length (u "${{")) with 3. change (length (u "}}")) with 2.
  destruct w1; [congruence|]. destruct w2; [congruence|]. cbn [length]. lia.
Qed.

End MatchFacts.

Section RenderFacts.

Variable unicode_alnum : N -> bool.

(** With a pattern whose matches all take something, any fuel above the
    length of the subject gives the same scan. *)
Lemma sub_loop_fuel (r : regex) (repl : str -> str) :
  (forall bos s rest, rmatch unicode_alnum r bos s = Some rest -> length rest < length s) ->
  forall f1 f2 bos s, length s < f1 -> length s < f2 ->
  sub_loop unicode_alnum f1 r repl bos s = sub_loop unicode_alnum f2 r repl bos s.
Proof.
  intros Hprog. induction f1 as [|f1 IH]; intros f2 bos s H1 H2; [lia|].
  destruct f2 as [|f2]; [lia|]. cbn [sub_loop].
  destruct (rmatch unicode_alnum r bos s) as [rest|] eqn:Hm.
  - apply Hprog in Hm. f_equal. apply IH; lia.
  - destruct s as [|c s]; [reflexivity|]. cbn [length] in *. f_equal. apply IH; lia.
Qed.

(** A match is a prefix of the subject, and not the empty one when the
    pattern has a character matcher. *)
Lemma rmatch_prefix (r : regex) :
  forall bos s rest,
    rmatch unicode_alnum r bos s = Some rest ->
    exists m, s = m ++ rest /\ (existsb is_chars r = true -> m <> []).
Proof.
  induction r as [|n r IH]; intros bos s rest H.
  - injection H as <-. exists []. split; [reflexivity|discriminate].
  - destruct n as [cs [|]| |]; cbn [rmatch] in H.
    + destruct s as [|c s]; [discriminate|].
      destruct (charset_test unicode_alnum cs c); [|discriminate].
      apply IH in H as (m & -> & _). exists (c :: m). split; [reflexivity|discriminate].
    + destruct s as [|c s]; [discriminate|].
      destruct (charset_test unicode_alnum cs c); [|discriminate].
      apply repeat_more_sound in H as (w & s' & -> & _ & H).
      apply IH in H as (m & -> & _). exists (c :: w ++ m).
      split; [cbn; now rewrite <- app_assoc|discriminate].
    + destruct bos; [|discriminate]. apply IH in H as (m & -> & Hm).
      exists m. auto.
    + destruct (at_end s); [|discriminate]. apply IH in H as (m & -> & Hm).
      exists m. auto.
Qed.

(** Every match of a compiled pattern takes at least one character, so
    the scans of [re_sub] and [re_findall] never run out of fuel. *)
Lemma compiled_progress (pattern : str) (r : regex) (bos : bool) (s rest : str) :
  re_compile pattern = inr r ->
  rmatch unicode_alnum r bos s = Some rest ->
  length rest < length s.
Proof.
  unfold re_compile. intros Hc H.
  destruct (tokenize pattern) as [e|ts]; [discriminate|].
  destruct (attach ts) as [e|r']; [discriminate|].
  destruct (existsb is_chars r') eqn:Hchars; [|discriminate].
  injection Hc as ->.
  apply rmatch_prefix in H as (m & -> & Hm).
  specialize (Hm Hchars). destruct m; [congruence|].
  rewrite length_app. cbn [length]. lia.
Qed.

Lemma placeholder_progress (key : str) (bos : bool) (s rest : str) :
  rmatch unicode_alnum (placeholder_regex key) bos s = Some rest ->
  length rest < length s.
Proof. intros H. apply placeholder_length in H. lia. Qed.

(** The scan [prompt_input] runs. *)
Lemma prompt_input_scan (prompt key value : str) :
  prompt_input unicode_alnum prompt key value
  = inr (sub_loop unicode_alnum (S (length prompt)) (placeholder_regex key)
           (fun _ => value) false prompt).
Proof.
  unfold prompt_input, re_sub. rewrite compile_placeholder.
  reflexivity.
Qed.

Lemma occurs_at_head (key : str) (bos : bool) (t : str) :
  ~ occurs_at key t 0 ->
  rmatch unicode_alnum (placeholder_regex key) bos t = None.
Proof.
  intros Hno. destruct (rmatch unicode_alnum (placeholder_regex key) bos t) as [rest|] eqn:Hm;
    [|reflexivity].
  exfalso. apply Hno.
  apply placeholder_sound in Hm as (w1 & w2 & H1 & H2 & ->).
  exists [], (u "${{" ++ w1 ++ key ++ w2 ++ u "}}"), rest.
  split; [|split; [reflexivity|]].
  - cbn [app]. rewrite <- !app_assoc. reflexivity.
  - exists w1, w2. auto.
Qed.

Lemma occurs_at_cons (key : str) (c : N) (t : str) (n : nat) :
  occurs_at key t n -> occurs_at key (c :: t) (S n).
Proof.
  intros (pre & ph & post & -> & <- & Hph).
  exists (c :: pre), ph, post. auto.
Qed.

(** Where no placeholder occurs, the scan copies the text. *)
Lemma scan_without_occurrence (key value : str) (bos : bool) (t : str) :
  (forall n, ~ occurs_at key t n) ->
  sub_loop unicode_alnum (S (length t)) (placeholder_regex key) (fun _ => value) bos t = t.
Proof.
  revert bos. induction t as [|c t IH]; intros bos Hno.
  - cbn [sub_loop]. now rewrite (occurs_at_head key bos [] (Hno 0)).
  - cbn [length]. cbn [sub_loop]. rewrite (occurs_at_head key bos _ (Hno 0)).
    f_equal. apply IH. intros n Hn. apply (Hno (S n)). now apply occurs_at_cons.
Qed.

(** Up to the first placeholder the scan copies the text; the placeholder
    becomes the value, as it is; the scan resumes after the placeholder. *)
Lemma scan_first_occurrence (key value : str) (bos : bool) (a ph b : str) :
  Placeholder key ph ->
  (forall n, n < length a -> ~ occurs_at key (a ++ ph ++ b) n) ->
  sub_loop unicode_alnum (S (length (a ++ ph ++ b))) (placeholder_regex key)
    (fun _ => value) bos (a ++ ph ++ b)
  = a ++ value
      ++ sub_loop unicode_alnum (S (length b)) (placeholder_regex key) (fun _ => value) false b.
Proof.
  intros (w1 & w2 & Hw1 & Hw2 & ->). revert bos.
  set (after := sub_loop unicode_alnum (S (length b)) (placeholder_regex key)
                  (fun _ => value) false b).
  induction a as [|c a IH]; intros bos Hno.
  - cbn [app]. cbn [sub_loop].
    replace ((u "${{" ++ w1 ++ key ++ w2 ++ u "}}") ++ b)
      with (u "${{" ++ w1 ++ key ++ w2 ++ u "}}" ++ b)
      by (now rewrite <- !app_assoc).
    rewrite (placeholder_complete unicode_alnum key bos w1 w2 b Hw1 Hw2).
    f_equal. subst after. apply sub_loop_fuel.
    + apply placeholder_progress.
    + rewrite !length_app. destruct Hw1 as [Hne _]. destruct w1; [congruence|].
      cbn [length]. lia.
    + lia.
  - cbn [app length]. cbn [sub_loop].
    rewrite (occurs_at_head key bos (c :: a ++ _ ++ b)
               (Hno 0 ltac:(cbn [length]; lia))).
    f_equal. apply IH. intros n Hn Hocc.
    apply (Hno (S n) ltac:(cbn [length]; lia)). now apply occurs_at_cons.
Qed.

Lemma placeholder_min_length (key ph : str) :
  Placeholder key ph -> length key + 7 <= length ph.
Proof.
  intros (w1 & w2 & [H1 _] & [H2 _] & ->).
  rewrite !length_app. change (length (u "${{")) with 3. change (length (u "}}")) with 2.
  destruct w1; [congruence|]. destruct w2; [congruence|]. cbn [length]. lia.
Qed.

Lemma occurs_at_head_match (key : str) (bos : bool) (t : str) :
  occurs_at key t 0 ->
  exists rest, rmatch unicode_alnum (placeholder_regex key) bos t = Some rest.
Proof.
  intros (pre & ph & post & -> & Hlen & (w1 & w2 & Hw1 & Hw2 & ->)).
  destruct pre; [|discriminate Hlen]. exists post. cbn [app].
  replace ((u "${{" ++ w1 ++ key ++ w2 ++ u "}}") ++ post)
    with (u "${{" ++ w1 ++ key ++ w2 ++ u "}}" ++ post)
    by (now rewrite <- !app_assoc).
  now apply placeholder_complete.
Qed.

Lemma occurs_at_tail (key : str) (c : N) (t : str) (n : nat) :
  occurs_at key (c :: t) (S n) -> occurs_at key t n.
Proof.
  intros (pre & ph & post & E & Hlen & Hph).
  destruct pre as [|x pre]; [discriminate Hlen|].
  injection E as _ ->. injection Hlen as <-.
  exists pre, ph, post. auto.
Qed.

(** The scan renders what [Rendered] says. *)
Lemma rendered_scan (key value t out : str) :
  Rendered key value t out ->
  sub_loop unicode_alnum (S (length t)) (placeholder_regex key) (fun _ => value) false t
  = out.
Proof.
  induction 1 as [t Hno|a ph b out Hph Hno _ IH].
  - now apply scan_without_occurrence.
  - rewrite scan_first_occurrence by assumption. now rewrite IH.
Qed.

(** What the scan gives is a rendering. *)
Lemma scan_rendered (key value : str) (fuel : nat) :
  forall t, length t < fuel ->
  Rendered key value t
    (sub_loop unicode_alnum (S (length t)) (placeholder_regex key) (fun _ => value) false t).
Proof.
  induction fuel as [|fuel IH]; intros t Hlen; [lia|].
  cbn [sub_loop].
  destruct (rmatch unicode_alnum (placeholder_regex key) false t) as [rest|] eqn:Hm.
  - pose proof (placeholder_length _ _ _ _ _ Hm) as Hshort.
    rewrite (sub_loop_fuel (placeholder_regex key) (fun _ => value)
               (placeholder_progress key)
               (length t) (S (length rest)) false rest) by lia.
    apply placeholder_sound in Hm as (w1 & w2 & Hw1 & Hw2 & ->).
    replace (u "${{" ++ w1 ++ key ++ w2 ++ u "}}" ++ rest)
      with ([] ++ (u "${{" ++ w1 ++ key ++ w2 ++ u "}}") ++ rest)
      by (cbn [app]; now rewrite <- !app_assoc).
    apply (@Rendered_first key value [] (u "${{" ++ w1 ++ key ++ w2 ++ u "}}") rest).
    + exists w1, w2. auto.
    + intros n Hn. cbn in Hn. lia.
    + apply IH. lia.
  - destruct t as [|c t]; [apply Rendered_rest|].
    + intros n (pre & ph & post & E & _ & Hph).
      apply placeholder_min_length in Hph.
      apply (f_equal (@length N)) in E. rewrite !length_app in E. cbn in E. lia.
    + cbn [length] in Hlen. specialize (IH t ltac:(lia)).
      assert (Hhead : ~ occurs_at key (c :: t) 0).
      { intros Hocc. apply (occurs_at_head_match key false) in Hocc as [rest Hrest].
        congruence. }
      change (length (c :: t)) with (S (length t)).
      remember (sub_loop unicode_alnum (S (length t)) (placeholder_regex key)
                  (fun _ => value) false t) as out eqn:Hout.
      clear Hout. destruct IH as [t Hno|a ph b out Hph Hno Hb].
      * apply Rendered_rest. intros [|n] Hocc; [contradiction|].
        apply occurs_at_tail in Hocc. now apply (Hno n).
      * change (c :: a ++ ph ++ b) with ((c :: a) ++ ph ++ b).
        change (c :: a ++ value ++ out) with ((c :: a) ++ value ++ out).
        apply Rendered_first; [exact Hph| |exact Hb].
        intros [|n] Hn Hocc; [contradiction|].
        cbn [length] in Hn. apply occurs_at_tail in Hocc.
        apply (Hno n); [lia|exact Hocc].
Qed.

End RenderFacts.

Section PlayerFacts.

Variable unicode_alnum : N -> bool.

Lemma player_set_test (c : N) :
  charset_test unicode_alnum (IN [SetCategory CATEGORY_WORD; SetLiteral 45]) c
  = player_char unicode_alnum c.
Proof.
  unfold player_char. cbn [charset_test existsb set_item_test category_test].
  now rewrite orb_false_r.
Qed.

Lemma forallb_player_set (s : str) :
  forallb (charset_test unicode_alnum (IN [SetCategory CATEGORY_WORD; SetLiteral 45])) s
  = forallb (player_char unicode_alnum) s.
Proof.
  induction s as [|c s IH]; [reflexivity|].
  cbn [forallb]. now rewrite player_set_test, IH.
Qed.

(** An ASCII letter, digit, underscore or hyphen is a character of a
    player identifier, whatever the Unicode table says above ASCII. *)
Lemma ascii_id_char_player_char (c : N) :
  ascii_id_char c = true -> player_char unicode_alnum c = true.
Proof.
  unfold ascii_id_char, player_char, is_word, Py_UNICODE_ISALNUM. intros H.
  apply orb_true_iff in H as [H|H]; [|now rewrite H, orb_true_r].
  apply orb_true_iff in H as [H|H]; [|now rewrite H, !orb_true_r].
  assert (Hlt : (c <? 128)%N = true).
  { unfold ascii_alnum in H. apply N.ltb_lt.
    repeat (apply orb_true_iff in H; destruct H as [H|H]);
      apply andb_true_iff in H as [_ H]; apply N.leb_le in H; lia. }
  now rewrite Hlt, H.
Qed.

Lemma player_match_all (s : str) :
  s <> [] -> forallb (player_char unicode_alnum) s = true ->
  rmatch unicode_alnum player_regex true s = Some [].
Proof.
  intros Hne Hs. destruct s as [|c s]; [congruence|].
  cbn [forallb] in Hs. apply andb_true_iff in Hs as [Hc Hs].
  unfold player_regex. cbn [rmatch]. rewrite player_set_test, Hc.
  apply repeat_more_all; [now rewrite forallb_player_set|reflexivity].
Qed.

(** What the pattern of [validate_player] matches from the beginning: a
    run of identifier characters that ends the string, or that only a
    final line feed follows. *)
Lemma player_match_inv (s rest : str) :
  rmatch unicode_alnum player_regex true s = Some rest ->
  exists body, body <> [] /\ forallb (player_char unicode_alnum) body = true
               /\ (s = body \/ s = body ++ [10%N]).
Proof.
  unfold player_regex. intros H. destruct s as [|c s]; cbn [rmatch] in H; [discriminate|].
  rewrite player_set_test in H. destruct (player_char unicode_alnum c) eqn:Hc; [|discriminate].
  apply repeat_more_sound in H as (w & s' & -> & Hw & H).
  rewrite forallb_player_set in Hw.
  exists (c :: w). split; [discriminate|]. split; [cbn; now rewrite Hc|].
  cbn [rmatch] in H. destruct s' as [|x [|y s']]; cbn [at_end] in H.
  - left. now rewrite app_nil_r.
  - destruct (x =? 10)%N eqn:Hx; [|discriminate]. apply N.eqb_eq in Hx. subst x.
    right. reflexivity.
  - discriminate.
Qed.

Lemma findall_none (r : regex) :
  (forall s, rmatch unicode_alnum r false s = None) ->
  forall fuel bos s, rmatch unicode_alnum r bos s = None ->
  findall_loop unicode_alnum fuel r bos s = [].
Proof.
  intros Hlater. induction fuel as [|fuel IH]; intros bos s H; [reflexivity|].
  cbn [findall_loop]. rewrite H. destruct s as [|c s]; [reflexivity|].
  apply IH, Hlater.
Qed.

Lemma validate_player_accepts (player : str) :
  player <> [] -> forallb (player_char unicode_alnum) player = true ->
  validate_player unicode_alnum player = inr player.
Proof.
  intros Hne Hs. unfold validate_player, re_findall.
  destruct player as [|c s] eqn:E; [congruence|]. cbn [str_is_empty]. rewrite <- E in *.
  rewrite compile_player. cbn [findall_loop].
  now rewrite (player_match_all player Hne Hs).
Qed.

Lemma validate_player_rejects (player : str) :
  (exists c, In c player /\ player_char unicode_alnum c = false) ->
  ~ (exists body, body <> [] /\ forallb (player_char unicode_alnum) body = true
                  /\ player = body ++ [10%N]) ->
  validate_player unicode_alnum player
  = inl (ValueError "Player is not an alphanumeric ID").
Proof.
  intros (c & Hin & Hc) Hnl. unfold validate_player, re_findall.
  destruct player as [|x s] eqn:E; [contradiction|]. cbn [str_is_empty]. rewrite <- E in *.
  rewrite compile_player.
  rewrite findall_none; [reflexivity|reflexivity|].
  destruct (rmatch unicode_alnum player_regex true player) as [rest|] eqn:Hm; [|reflexivity].
  exfalso. apply player_match_inv in Hm as (body & Hne & Hbody & [->| ->]).
  - rewrite forallb_forall in Hbody. rewrite (Hbody c Hin) in Hc. discriminate.
  - apply Hnl. exists body. auto.
Qed.

(** The line feed that [$] lets through: an accepted identifier followed
    by one line feed is accepted as well, line feed included. *)
Lemma validate_player_trailing_line_feed (body : str) :
  body <> [] -> forallb (player_char unicode_alnum) body = true ->
  validate_player unicode_alnum (body ++ [10%N]) = inr (body ++ [10%N]).
Proof.
  intros Hne Hbody. unfold validate_player, re_findall.
  destruct body as [|c body]; [congruence|]. cbn [app str_is_empty].
  rewrite compile_player. cbn [findall_loop].
  cbn [forallb] in Hbody. apply andb_true_iff in Hbody as [Hc Hbody].
  unfold player_regex. cbn [rmatch]. rewrite player_set_test, Hc.
  assert (H10 : charset_test unicode_alnum
                  (IN [SetCategory CATEGORY_WORD; SetLiteral 45]) 10 = false).
  { rewrite player_set_test. reflexivity. }
  rewrite (repeat_more_stop _ _ body 10%N [] [10%N]);
    [reflexivity|now rewrite forallb_player_set|exact H10|reflexivity].
Qed.

End PlayerFacts.

(* ===================================================================== *)
(** * Facts about the calls of the reconciler and the orchestrator *)
(* ===================================================================== *)

Section ProgramFacts.

Variable unicode_alnum : N -> bool.
Variable fs : LocalFS.
Variable remote : Type.
Variable client : Service remote.

Lemma bind_run {A B : Type} (c : M remote A) (k : A -> M remote B) (w : world remote) :
  bind c k w = match c w with
               | (inl e, w') => (inl e, w')
               | (inr a, w') => k a w'
               end.
Proof. reflexivity. Qed.

Lemma no_generate_app (evs1 evs2 : list event) :
  no_generate evs1 -> no_generate evs2 -> no_generate (evs1 ++ evs2).
Proof. unfold no_generate. intros H1 H2. now rewrite forallb_app, H1, H2. Qed.

Lemma quiet_ret {A : Type} (a : A) : quiet (ret (remote := remote) a).
Proof. intros s log. exists (inr a), s, []. now rewrite app_nil_r. Qed.

Lemma quiet_raise {A : Type} (e : exn) : quiet (raise (remote := remote) (A := A) e).
Proof. intros s log. exists (inl e), s, []. now rewrite app_nil_r. Qed.

Lemma quiet_lift {A : Type} (r : result A) : quiet (lift (remote := remote) r).
Proof. destruct r; [apply quiet_raise|apply quiet_ret]. Qed.

Lemma quiet_bind {A B : Type} (c : M remote A) (k : A -> M remote B) :
  quiet c -> (forall a, quiet (k a)) -> quiet (bind c k).
Proof.
  intros Hc Hk s log. destruct (Hc s log) as (r & s1 & evs1 & E1 & H1).
  rewrite bind_run, E1. destruct r as [e|a].
  - exists (inl e), s1, evs1. auto.
  - destruct (Hk a s1 (log ++ evs1)) as (r2 & s2 & evs2 & E2 & H2).
    exists r2, s2, (evs1 ++ evs2). rewrite E2, app_assoc.
    auto using no_generate_app.
Qed.

Lemma quiet_call {A : Type} (op : remote -> result A * remote) (ev : result A -> event) :
  (forall answer, is_generate (ev answer) = false) -> quiet (call op ev).
Proof.
  intros Hev s log. unfold call. cbn [fst snd].
  destruct (op s) as [answer s1]. exists answer, s1, [ev answer].
  split; [reflexivity|]. unfold no_generate. cbn. now rewrite Hev.
Qed.

Lemma ensure_file_quiet (display_name : str) (path : Path) :
  quiet (ensure_file fs client display_name path).
Proof.
  unfold ensure_file. apply quiet_bind; [now apply quiet_call|].
  intros files. destruct (find (file_named display_name) files).
  - apply quiet_ret.
  - now apply quiet_call.
Qed.

Lemma ensure_paths_quiet (prefix : str) (dir : Path) (filter : Path -> bool)
  (paths : list Path) :
  quiet (ensure_paths unicode_alnum fs client prefix dir filter paths).
Proof.
  induction paths as [|path paths IH]; cbn [ensure_paths]; [apply quiet_ret|].
  destruct (is_file fs path && filter path); [|exact IH].
  apply quiet_bind; [apply quiet_lift|]. intros name.
  apply quiet_bind; [apply ensure_file_quiet|]. intros file.
  apply quiet_bind; [exact IH|]. intros files. apply quiet_ret.
Qed.

(** Reconciling the cache adds no generation request, and what it
    returns is the listed or the created cache. *)
Lemma ensure_cache_run (model : option str) (display_name context : str)
  (files : option (list File.t)) (s : remote) (log : list event) :
  exists r s' evs,
    ensure_cache client model display_name context files (s, log)
    = (r, (s', log ++ evs))
    /\ no_generate evs
    /\ (forall cache, r = inr cache -> reconciled display_name cache evs).
Proof.
  unfold ensure_cache. rewrite bind_run. unfold client_caches_list, call at 1.
  cbn [fst snd]. destruct (caches_list client s) as [[e|caches] s1].
  - exists (inl e), s1, [EvCachesList (inl e)]. repeat split. discriminate.
  - destruct (find (cache_named display_name) caches) as [cache|] eqn:Hfind.
    + exists (inr cache), s1, [EvCachesList (inr caches)]. repeat split.
      intros c [= <-]. left. exists caches. cbn. auto.
    + unfold client_caches_create, call. cbn [fst snd].
      match goal with |- context [caches_create client ?m ?c s1] =>
        destruct (caches_create client m c s1) as [answer s2] eqn:Hcreate;
        exists answer, s2, [EvCachesList (inr caches); EvCachesCreate m c answer]
      end.
      rewrite <- app_assoc. repeat split.
      intros c ->. right. eexists _, _. cbn. eauto.
Qed.

Lemma reconciled_app (display_name : str) (cache : CachedContent.t)
  (before evs : list event) :
  reconciled display_name cache evs -> reconciled display_name cache (before ++ evs).
Proof.
  intros [(caches & Hin & Hfind)|(model & config & Hin)].
  - left. exists caches. split; [apply in_or_app; now right|exact Hfind].
  - right. exists model, config. apply in_or_app. now right.
Qed.

(** Every run of the orchestrator starts with calls that are not
    generation requests, and then either fails or makes one generation
    request, with the model it looked up, the prompt, and the
    configuration the options call for; the answer to that request is
    the outcome of the run. *)
Lemma gemini_battler_run (options : Options) (context prompt : str)
  (s : remote) (log : list event) :
  exists evs, no_generate evs /\ evs <> []
    /\ ((exists e s', gemini_battler unicode_alnum fs client options context prompt (s, log)
                      = (inl e, (s', log ++ evs)))
        \/ (exists model config answer s',
              gemini_battler unicode_alnum fs client options context prompt (s, log)
              = (generation_outcome answer,
                 (s', log ++ evs
                      ++ [EvGenerateContent (Model.name model) prompt config answer]))
              /\ config_for options context config evs)).
Proof.
  destruct (gemini_battler unicode_alnum fs client options context prompt (s, log))
    as [out w] eqn:Hout.
  unfold gemini_battler in Hout. rewrite bind_run in Hout.
  unfold client_models_get, call in Hout. cbn [fst snd] in Hout.
  destruct (models_get client (u "models/gemini-2.5-flash") s) as [[e|model] s1].
  { injection Hout as <- <-.
    exists [EvModelsGet (u "models/gemini-2.5-flash") (inl e)].
    repeat split; [discriminate|]. left. eauto. }
  match type of Hout with context [bind ?F _ _] => assert (HF : quiet F) end.
  { destruct (use_data_files options); [|apply quiet_ret].
    destruct (negb (use_cache options)); [apply quiet_raise|].
    destruct (data options) as [dir|]; [|apply quiet_raise].
    apply quiet_bind; [apply ensure_paths_quiet|]. intros files. apply quiet_ret. }
  rewrite bind_run in Hout.
  destruct (HF s1 (log ++ [EvModelsGet (u "models/gemini-2.5-flash") (inr model)]))
    as (r2 & s2 & evs2 & E2 & H2).
  rewrite E2 in Hout. clear E2 HF. destruct r2 as [e|files].
  { injection Hout as <- <-.
    exists (EvModelsGet (u "models/gemini-2.5-flash") (inr model) :: evs2).
    repeat split; [exact H2|discriminate|]. left. exists e, s2.
    now rewrite <- app_assoc. }
  rewrite bind_run in Hout.
  set (log2 := (log ++ [EvModelsGet (u "models/gemini-2.5-flash") (inr model)]) ++ evs2)
    in Hout.
  assert (HC : exists r s' evs,
             (if use_cache options
              then bind (ensure_cache client (Model.name model) (u "battler") context files)
                     (fun cache => ret (GenerateContentConfig.Build None
                                          (CachedContent.name cache)))
              else ret (GenerateContentConfig.Build (Some context) None)) (s2, log2)
             = (r, (s', log2 ++ evs))
             /\ no_generate evs
             /\ (forall config, r = inr config -> config_for options context config evs)).
  { unfold config_for. destruct (use_cache options).
    - rewrite bind_run.
      destruct (ensure_cache_run (Model.name model) (u "battler") context files s2 log2)
        as (r & s' & evs & E & Hq & Hrec).
      rewrite E. destruct r as [e|cache].
      + exists (inl e), s', evs. repeat split; [exact Hq|discriminate].
      + exists (inr (GenerateContentConfig.Build None (CachedContent.name cache))), s', evs.
        repeat split; [exact Hq|]. intros config [= <-]. exists cache. auto.
    - exists (inr (GenerateContentConfig.Build (Some context) None)), s2, [].
      rewrite app_nil_r. repeat split. now intros config [= <-]. }
  destruct HC as (r3 & s3 & evs3 & E3 & H3 & Hcfg). rewrite E3 in Hout. clear E3.
  exists (EvModelsGet (u "models/gemini-2.5-flash") (inr model) :: evs2 ++ evs3).
  split; [|split; [discriminate|]].
  { apply (no_generate_app [_]); [reflexivity|now apply no_generate_app]. }
  subst log2. destruct r3 as [e|config].
  { injection Hout as <- <-. left. exists e, s3. now rewrite <- !app_assoc. }
  rewrite bind_run in Hout. unfold client_models_generate_content, call in Hout.
  cbn [fst snd] in Hout.
  destruct (generate_content client (Model.name model) prompt config s3) as [answer s4].
  right. exists model, config, answer, s4. split.
  - rewrite <- Hout. cbn [app]. rewrite <- !app_assoc. cbn [app].
    destruct answer; reflexivity.
  - specialize (Hcfg config eq_refl). unfold config_for in *.
    destruct (use_cache options); [|exact Hcfg].
    destruct Hcfg as (cache & Hrec & ->). exists cache. split; [|reflexivity].
    apply (reconciled_app _ _
             (EvModelsGet (u "models/gemini-2.5-flash") (inr model) :: evs2)) in Hrec.
    exact Hrec.
Qed.

Lemma reconciled_app_r (display_name : str) (cache : CachedContent.t)
  (evs later : list event) :
  reconciled display_name cache evs -> reconciled display_name cache (evs ++ later).
Proof.
  intros [(caches & Hin & Hfind)|(model & config & Hin)].
  - left. exists caches. split; [apply in_or_app; now left|exact Hfind].
  - right. exists model, config. apply in_or_app. now left.
Qed.

Lemma no_generate_in (evs : list event) (ev : event) :
  no_generate evs -> In ev evs -> is_generate ev = false.
Proof.
  unfold no_generate. rewrite forallb_forall. intros H Hin.
  apply H in Hin. now destruct (is_generate ev).
Qed.

Lemma no_generate_filter (evs : list event) :
  no_generate evs -> filter is_generate evs = [].
Proof.
  unfold no_generate. induction evs as [|ev evs IH]; [reflexivity|].
  cbn [forallb filter]. intros H. apply andb_true_iff in H as [Hev H].
  destruct (is_generate ev); [discriminate|]. now apply IH.
Qed.

Lemma file_named_eq (display_name : str) (file : File.t) :
  file_named display_name file = true <-> File.display_name file = Some display_name.
Proof. unfold file_named. apply opt_str_eqb_eq. Qed.

Lemma find_first {A : Type} (p : A -> bool) (before : list A) (x : A) (after : list A) :
  forallb (fun a => negb (p a)) before = true -> p x = true ->
  find p (before ++ x :: after) = Some x.
Proof.
  intros Hb Hx. induction before as [|b before IH]; cbn [app find].
  - now rewrite Hx.
  - cbn [forallb] in Hb. apply andb_true_iff in Hb as [Hb1 Hb].
    destruct (p b); [discriminate|]. now apply IH.
Qed.

Lemma find_only {A : Type} (p : A -> bool) (l : list A) (x : A) :
  In x l -> p x = true -> (forall y, In y l -> y = x \/ p y = false) ->
  find p l = Some x.
Proof.
  induction l as [|a l IH]; intros Hin Hx Hall; [contradiction|].
  cbn [find]. destruct (Hall a (or_introl eq_refl)) as [->|Ha].
  - now rewrite Hx.
  - rewrite Ha. destruct Hin as [->|Hin]; [congruence|].
    apply IH; auto. intros y Hy. apply Hall. now right.
Qed.

Lemma find_none_iff {A : Type} (p : A -> bool) (l : list A) :
  find p l = None <-> forall y, In y l -> p y = false.
Proof.
  split.
  - intros H y Hy. now apply (find_none p l H).
  - induction l as [|a l IH]; intros H; [reflexivity|].
    cbn [find]. rewrite (H a (or_introl eq_refl)). apply IH.
    intros y Hy. apply H. now right.
Qed.

(** A listed file with the display name: no upload. *)
Lemma ensure_file_listed (display_name : str) (path : Path) (s s1 : remote)
  (log : list event) (files : list File.t) (file : File.t) :
  files_list client s = (inr files, s1) ->
  find (file_named display_name) files = Some file ->
  ensure_file fs client display_name path (s, log)
  = (inr file, (s1, log ++ [EvFilesList (inr files)])).
Proof.
  intros Hlist Hfind. unfold ensure_file. rewrite bind_run.
  unfold client_files_list, call. cbn [fst snd]. now rewrite Hlist, Hfind.
Qed.

(** No listed file with the display name: one upload, whose answer is the
    result. *)
Lemma ensure_file_uploads (display_name : str) (path : Path) (s s1 s2 : remote)
  (log : list event) (files : list File.t) (answer : result File.t) :
  files_list client s = (inr files, s1) ->
  find (file_named display_name) files = None ->
  files_upload client path
    (UploadFileConfig.Build (Some display_name) (guess_type fs path)) s1 = (answer, s2) ->
  ensure_file fs client display_name path (s, log)
  = (answer,
     (s2, log ++ [EvFilesList (inr files);
                  EvFilesUpload path
                    (UploadFileConfig.Build (Some display_name) (guess_type fs path))
                    answer])).
Proof.
  intros Hlist Hfind Hup. unfold ensure_file. rewrite bind_run.
  unfold client_files_list, call at 1. cbn [fst snd]. rewrite Hlist, Hfind.
  unfold client_files_upload, call. cbn [fst snd]. rewrite Hup.
  now rewrite <- app_assoc.
Qed.

(* ===================================================================== *)
(** * The reconciler: [ensure_file] *)
(* ===================================================================== *)

(** C1. [ensure_file] is idempotent under display-name lookup.  When the
    listing holds a file with exactly the requested display name,
    [ensure_file] returns such a file and its only call is the listing: no
    upload.  When no listed file has the name, it makes exactly one
    upload, with the requested display name, and returns the uploaded
    file; and if the service then lists that file under the requested
    name together with files it listed before, a second [ensure_file]
    against the resulting state makes no upload and returns the same
    file: one listing, one upload, one listing in total. *)
Theorem ensure_file_idempotent :
  forall (display_name : str) (path : Path) (s s1 : remote) (log : list event)
         (files : list File.t),
    files_list client s = (inr files, s1) ->
    ((exists f, In f files /\ File.display_name f = Some display_name) ->
     exists f, In f files /\ File.display_name f = Some display_name
       /\ ensure_file fs client display_name path (s, log)
          = (inr f, (s1, log ++ [EvFilesList (inr files)])))
    /\
    ((forall f, In f files -> File.display_name f <> Some display_name) ->
     forall (uploaded : File.t) (s2 : remote),
       let config := UploadFileConfig.Build (Some display_name) (guess_type fs path) in
       files_upload client path config s1 = (inr uploaded, s2) ->
       ensure_file fs client display_name path (s, log)
       = (inr uploaded,
          (s2, log ++ [EvFilesList (inr files); EvFilesUpload path config (inr uploaded)]))
       /\
       forall (files2 : list File.t) (s3 : remote),
         File.display_name uploaded = Some display_name ->
         files_list client s2 = (inr files2, s3) ->
         In uploaded files2 ->
         (forall g, In g files2 -> g = uploaded \/ In g files) ->
         ensure_file fs client display_name path
           (s2, log ++ [EvFilesList (inr files); EvFilesUpload path config (inr uploaded)])
         = (inr uploaded,
            (s3, log ++ [EvFilesList (inr files); EvFilesUpload path config (inr uploaded);
                         EvFilesList (inr files2)]))).
Proof.
  intros display_name path s s1 log files Hlist. split.
  - intros (f & Hin & Hname).
    destruct (find (file_named display_name) files) as [g|] eqn:Hfind.
    + exists g. apply find_some in Hfind as Hg. destruct Hg as [Hg1 Hg2].
      apply file_named_eq in Hg2. repeat split; auto.
      now apply ensure_file_listed.
    + exfalso. apply (find_none _ _ Hfind) in Hin.
      apply file_named_eq in Hname. congruence.
  - intros Hnone uploaded s2 config Hup.
    assert (Hfind : find (file_named display_name) files = None).
    { apply find_none_iff. intros y Hy.
      destruct (file_named display_name y) eqn:E; [|reflexivity].
      apply file_named_eq in E. now apply Hnone in Hy. }
    split; [now apply ensure_file_uploads with (s1 := s1)|].
    intros files2 s3 Hname Hlist2 Hin2 Hold.
    rewrite (ensure_file_listed display_name path s2 s3 _ files2 uploaded Hlist2).
    + now rewrite <- app_assoc.
    + apply find_only; [exact Hin2|now apply file_named_eq|].
      intros y Hy. destruct (Hold y Hy) as [->|Hy']; [now left|right].
      destruct (file_named display_name y) eqn:E; [|reflexivity].
      apply file_named_eq in E. now apply Hnone in Hy'.
Qed.

(** C10. When the listing holds several files with the requested display
    name, [ensure_file] returns the first of them in listing order and
    makes no upload: its only call is the listing.  The result depends on
    the listing alone, so calls against the same listing return the same
    file. *)
Theorem ensure_file_first_match :
  forall (display_name : str) (path : Path) (s s1 : remote) (log : list event)
         (before : list File.t) (file : File.t) (after : list File.t),
    files_list client s = (inr (before ++ file :: after), s1) ->
    forallb (fun f => negb (file_named display_name f)) before = true ->
    file_named display_name file = true ->
    ensure_file fs client display_name path (s, log)
    = (inr file, (s1, log ++ [EvFilesList (inr (before ++ file :: after))])).
Proof.
  intros display_name path s s1 log before file after Hlist Hbefore Hfile.
  apply ensure_file_listed; [exact Hlist|].
  now apply find_first.
Qed.

(* ===================================================================== *)
(** * The orchestrator: [gemini_battler] *)
(* ===================================================================== *)

(** C2. In every run of [gemini_battler] at most one generation request
    is made, its content is the prompt, and its configuration never
    carries both an inline system instruction and a cache reference: with
    [use_cache] the configuration names the reconciled cache and has no
    inline system instruction; without it the configuration is the
    context inline and no cache.  Files are attached to the cache
    creation request only: the generation configuration has no field for
    them and the content of the request is the prompt text. *)
Theorem generation_config_exclusive :
  forall (options : Options) (context prompt : str) (s : remote) (log : list event),
    exists evs,
      snd (snd (gemini_battler unicode_alnum fs client options context prompt (s, log)))
      = log ++ evs
      /\ length (filter is_generate evs) <= 1
      /\ forall model contents config answer,
           In (EvGenerateContent model contents config answer) evs ->
           contents = prompt
           /\ (GenerateContentConfig.system_instruction config = None
               \/ GenerateContentConfig.cached_content config = None)
           /\ (use_cache options = true ->
               GenerateContentConfig.system_instruction config = None
               /\ exists cache, reconciled (u "battler") cache evs
                                /\ GenerateContentConfig.cached_content config
                                   = CachedContent.name cache)
           /\ (use_cache options = false ->
               config = GenerateContentConfig.Build (Some context) None).
Proof.
  intros options context prompt s log.
  destruct (gemini_battler_run options context prompt s log)
    as (evs & Hq & _ & [(e & s' & E)|(model & config & answer & s' & E & Hcfg)]).
  - exists evs. rewrite E. split; [reflexivity|]. split.
    + rewrite (no_generate_filter evs Hq). cbn. lia.
    + intros m c cfg a Hin. apply (no_generate_in _ _ Hq) in Hin. discriminate.
  - exists (evs ++ [EvGenerateContent (Model.name model) prompt config answer]).
    rewrite E. split; [reflexivity|]. split.
    + rewrite filter_app, (no_generate_filter evs Hq). cbn. lia.
    + intros m c cfg a Hin. apply in_app_or in Hin as [Hin|[Hin|[]]].
      { apply (no_generate_in _ _ Hq) in Hin. discriminate. }
      injection Hin as <- <- <- <-. split; [reflexivity|].
      unfold config_for in Hcfg. destruct (use_cache options).
      * destruct Hcfg as (cache & Hrec & ->). cbn. split; [now left|]. split.
        -- intros _. split; [reflexivity|].
           exists cache. split; [now apply reconciled_app_r|reflexivity].
        -- discriminate.
      * subst config. cbn. split; [now right|]. split; [discriminate|].
        intros _. reflexivity.
Qed.


(** C9, as the code has it.  Once the generation request has been made,
    its answer is the outcome of the run: an exception raised by the
    request is the exception the run fails with, unchanged, and a
    response makes the run return the response's text as it is, also when
    that text is absent or empty. *)
Theorem gemini_battler_returns_generation_outcome :
  forall (options : Options) (context prompt : str) (s s' : remote)
         (log log' earlier : list event) (out : result (option str))
         (model : option str) (contents : str) (config : GenerateContentConfig.t)
         (answer : result GenerateContentResponse.t),
    gemini_battler unicode_alnum fs client options context prompt (s, log)
    = (out, (s', log')) ->
    log' = earlier ++ [EvGenerateContent model contents config answer] ->
    out = generation_outcome answer.
Proof.
  intros options context prompt s s' log log' earlier out model contents config answer
         Hrun Hlast.
  destruct (gemini_battler_run options context prompt s log)
    as (evs & Hq & Hne & [(e & s2 & E)|(m & cfg & a & s2 & E & _)]);
    rewrite E in Hrun; injection Hrun as <- <- <-.
  - exfalso. destruct (exists_last Hne) as (evs' & ev & ->).
    rewrite app_assoc in Hlast. apply app_inj_tail in Hlast as [_ ->].
    assert (Hin : In (EvGenerateContent model contents config answer)
                    (evs' ++ [EvGenerateContent model contents config answer]))
      by (apply in_or_app; right; now left).
    apply (no_generate_in _ _ Hq) in Hin. discriminate.
  - rewrite app_assoc in Hlast. apply app_inj_tail in Hlast as [_ Hev].
    now injection Hev as <- <- <- <-.
Qed.

End ProgramFacts.

(* ===================================================================== *)
(** * The template renderer: [prompt_input] *)
(* ===================================================================== *)

(** C8. [prompt_input] replaces every placeholder for the key, leftmost
    first and never one that overlaps the one before: its result is
    exactly the rendering [Rendered] describes.  In particular a text in
    which no placeholder occurs is returned unchanged, and a text
    [a ++ ph ++ b] whose first placeholder is [ph] is rendered as [a], the
    value, and the rendering of [b].  A placeholder holds the key as it
    is, character for character, whatever characters the key is made of;
    the value is inserted as it is, whatever it contains; and what follows
    the value is the rendering of the rest of the text alone: the value
    is never scanned. *)
Theorem prompt_input_replaces_occurrences :
  forall (unicode_alnum : N -> bool) (key value : str),
    (forall t out,
        prompt_input unicode_alnum t key value = inr out <-> Rendered key value t out)
    /\ (forall t,
           (forall n, ~ occurs_at key t n) ->
           prompt_input unicode_alnum t key value = inr t)
    /\ (forall a ph b,
           Placeholder key ph ->
           (forall n, n < length a -> ~ occurs_at key (a ++ ph ++ b) n) ->
           exists out,
             prompt_input unicode_alnum b key value = inr out
             /\ prompt_input unicode_alnum (a ++ ph ++ b) key value
                = inr (a ++ value ++ out)).
Proof.
  intros unicode_alnum key value. split; [|split].
  - intros t out. rewrite prompt_input_scan. split.
    + intros [= <-]. apply (scan_rendered unicode_alnum key value (S (length t))). lia.
    + intros H. f_equal. now apply rendered_scan.
  - intros t Hno. rewrite prompt_input_scan. f_equal.
    now apply scan_without_occurrence.
  - intros a ph b Hph Hno.
    exists (sub_loop unicode_alnum (S (length b)) (placeholder_regex key)
              (fun _ => value) false b).
    split; [apply prompt_input_scan|].
    rewrite prompt_input_scan. f_equal. now apply scan_first_occurrence.
Qed.

(** C4, as the code has it.  The whitespace inside the braces is
    required: a placeholder with one or more whitespace characters on
    each side of the key is replaced by the value, and the text [${{],
    the key, [}}] with no whitespace at all is left as it is. *)
Theorem prompt_input_needs_whitespace :
  forall (unicode_alnum : N -> bool) (key value : str),
    (forall w1 w2,
        ws_run w1 -> ws_run w2 ->
        prompt_input unicode_alnum (u "${{" ++ w1 ++ key ++ w2 ++ u "}}") key value
        = inr value)
    /\ prompt_input unicode_alnum (u "${{" ++ key ++ u "}}") key value
       = inr (u "${{" ++ key ++ u "}}").
Proof.
  intros unicode_alnum key value. split.
  - intros w1 w2 Hw1 Hw2. rewrite prompt_input_scan. f_equal.
    pose proof (scan_first_occurrence unicode_alnum key value false []
                  (u "${{" ++ w1 ++ key ++ w2 ++ u "}}") []) as H.
    cbn [app length] in H. rewrite !app_nil_r in H.
    rewrite H.
    + reflexivity.
    + exists w1, w2. auto.
    + intros n Hn. lia.
  - rewrite prompt_input_scan. f_equal. apply scan_without_occurrence.
    intros n (pre & ph & post & E & _ & Hph).
    apply placeholder_min_length in Hph.
    apply (f_equal (@length N)) in E. rewrite !length_app in E.
    change (length (u "${{")) with 3 in E. change (length (u "}}")) with 2 in E.
    lia.
Qed.

(* ===================================================================== *)
(** * The input validator *)
(* ===================================================================== *)

(** C5, as the code has it.  [validate_player] accepts every non-empty
    string of ASCII letters, digits, underscores and hyphens and returns
    it unchanged; more generally it accepts every non-empty string of
    word characters, in the Unicode sense of [\w], and hyphens.  A string
    with a character that is neither is refused with [ValueError], unless
    it is an accepted string followed by one line feed, a case this
    statement leaves open. *)
Theorem validate_player_word_characters :
  forall (unicode_alnum : N -> bool) (player : str),
    (player <> [] -> forallb ascii_id_char player = true ->
     validate_player unicode_alnum player = inr player)
    /\ (player <> [] -> forallb (player_char unicode_alnum) player = true ->
        validate_player unicode_alnum player = inr player)
    /\ ((exists c, In c player /\ player_char unicode_alnum c = false) ->
        ~ (exists body, body <> []
                        /\ forallb (player_char unicode_alnum) body = true
                        /\ player = body ++ [10%N]) ->
        validate_player unicode_alnum player
        = inl (ValueError "Player is not an alphanumeric ID")).
Proof.
  intros unicode_alnum player. split; [|split].
  - intros Hne Hascii. apply validate_player_accepts; [exact Hne|].
    apply forallb_forall. intros c Hc. apply ascii_id_char_player_char.
    rewrite forallb_forall in Hascii. now apply Hascii.
  - apply validate_player_accepts.
  - apply validate_player_rejects.
Qed.

Section JsonFacts.

Variable json_loads : str -> result pyobj.
Variable json_dumps : pyobj -> result str.

(** Text that [json.loads] refuses is refused with [ValueError]. *)
Lemma validate_input_not_json (input : str) (e : exn) :
  input <> [] -> json_loads input = inl e ->
  validate_input json_loads json_dumps input
  = inl (ValueError "Battle input is not valid JSON").
Proof.
  intros Hne Hload. unfold validate_input.
  destruct input; [congruence|]. cbn [str_is_empty]. now rewrite Hload.
Qed.

(** Text that [json.loads] reads as anything but a [dict] runs into the
    unbound name [e]. *)
Lemma validate_input_not_dict (input : str) (v : pyobj) :
  input <> [] -> json_loads input = inr v -> isinstance_dict v = false ->
  validate_input json_loads json_dumps input
  = inl (UnboundLocalError
           "cannot access local variable 'e' where it is not associated with a value").
Proof.
  intros Hne Hload Hdict. unfold validate_input.
  destruct input; [congruence|]. cbn [str_is_empty]. now rewrite Hload, Hdict.
Qed.



End JsonFacts.

(* ===================================================================== *)
(** * The statements at concrete inputs *)
(* ===================================================================== *)

(** C6: what the code does on JSON text that is not an object.  An array
    and a scalar do not fail as malformed text does: malformed text is
    refused with [ValueError], an array or a scalar runs into the unbound
    name [e] and fails with [UnboundLocalError], which is a [NameError]
    and no [ValueError]. *)
Theorem validate_input_non_object_unbound_local :
  validate_input MiniJson.loads MiniJson.dumps (json_text "[1]")
  = inl (UnboundLocalError
           "cannot access local variable 'e' where it is not associated with a value")
  /\ validate_input MiniJson.loads MiniJson.dumps (json_text "1")
     = inl (UnboundLocalError
              "cannot access local variable 'e' where it is not associated with a value")
  /\ validate_input MiniJson.loads MiniJson.dumps (json_text "{")
     = inl (ValueError "Battle input is not valid JSON")
  /\ is_ValueError
       (UnboundLocalError
          "cannot access local variable 'e' where it is not associated with a value")
     = false
  /\ is_NameError
       (UnboundLocalError
          "cannot access local variable 'e' where it is not associated with a value")
     = true.
Proof. vm_compute. repeat split. Qed.

(** C4: with no whitespace inside the braces nothing is replaced. *)
Lemma prompt_input_without_whitespace_unchanged :
  prompt_input latin1_alnum (u "${{X}}") (u "X") (u "Y") = inr (u "${{X}}")
  /\ prompt_input latin1_alnum (u "${{X}}") (u "X") (u "Y") <> inr (u "Y")
  /\ prompt_input latin1_alnum (u "${{ X }}") (u "X") (u "Y") = inr (u "Y").
Proof. vm_compute. repeat split. discriminate. Qed.

Lemma prompt_input_needs_whitespace_witness :
  prompt_input latin1_alnum (u "${{" ++ [32; 9]%N ++ u "X" ++ [32]%N ++ u "}}")
    (u "X") (u "Y")
  = inr (u "Y").
Proof.
  apply (proj1 (prompt_input_needs_whitespace latin1_alnum (u "X") (u "Y")));
    (split; [discriminate|reflexivity]).
Defined.

(** C5: a non-ASCII letter is accepted. *)
Lemma validate_player_accepts_non_ascii_letter :
  ascii_id_char 233 = false
  /\ validate_player latin1_alnum [233%N] = inr [233%N].
Proof. vm_compute. split; reflexivity. Qed.

Lemma validate_player_word_characters_witness :
  validate_player latin1_alnum (u "Ash-Ketchum_01") = inr (u "Ash-Ketchum_01")
  /\ validate_player latin1_alnum [112; 233]%N = inr [112; 233]%N
  /\ validate_player latin1_alnum (u "a b")
     = inl (ValueError "Player is not an alphanumeric ID").
Proof.
  split; [|split].
  - apply (proj1 (validate_player_word_characters latin1_alnum (u "Ash-Ketchum_01")));
      [discriminate|reflexivity].
  - apply (proj1 (proj2 (validate_player_word_characters latin1_alnum [112; 233]%N)));
      [discriminate|reflexivity].
  - apply (proj2 (proj2 (validate_player_word_characters latin1_alnum (u "a b")))).
    + exists 32%N. split; [cbn; auto|reflexivity].
    + intros (body & _ & _ & E). apply (f_equal (@rev N)) in E.
      rewrite rev_app_distr in E. discriminate E.
Defined.

Lemma prompt_input_replaces_occurrences_witness :
  (exists out,
      prompt_input latin1_alnum (u " ${{ AxB }}") (u "A.B") (u "\1 ${{ A.B }}") = inr out
      /\ prompt_input latin1_alnum (u "a " ++ u "${{ A.B }}" ++ u " ${{ AxB }}")
           (u "A.B") (u "\1 ${{ A.B }}")
         = inr (u "a " ++ u "\1 ${{ A.B }}" ++ out))
  /\ prompt_input latin1_alnum (u " ${{ AxB }}") (u "A.B") (u "\1 ${{ A.B }}")
     = inr (u " ${{ AxB }}").
Proof.
  split.
  - apply (proj2 (proj2 (prompt_input_replaces_occurrences latin1_alnum (u "A.B")
                           (u "\1 ${{ A.B }}")))).
    + exists [32%N], [32%N]. repeat split; try discriminate; reflexivity.
    + intros n Hn (pre & ph & post & E & Hlen & (w1 & w2 & _ & _ & ->)).
      destruct pre as [|x [|y pre]]; cbn in Hlen; subst n; cbn in Hn;
        [discriminate E|discriminate E|lia].
  - apply (proj1 (proj2 (prompt_input_replaces_occurrences latin1_alnum (u "A.B")
                           (u "\1 ${{ A.B }}")))).
    intros n (pre & ph & post & E & _ & (w1 & w2 & [Hw1 Hs1] & _ & ->)).
    destruct w1 as [|c1 w1]; [congruence|].
    cbn [forallb] in Hs1. apply andb_true_iff in Hs1 as [Hc1 Hs1].
    destruct pre as [|x0 [|x1 pre]]; cbn in E.
    + discriminate E.
    + injection E as _ <- E. destruct w1 as [|c2 w1]; cbn in E.
      * discriminate E.
      * injection E as <- E. discriminate Hs1.
    + injection E as _ _ E.
      assert (Hin : In 36%N [123; 123; 32; 65; 120; 66; 32; 125; 125]%N)
        by (rewrite E; apply in_or_app; right; now left).
      cbn in Hin. repeat (destruct Hin as [Hin|Hin]; [discriminate Hin|]).
      exact Hin.
Defined.

Lemma ensure_file_idempotent_witness :
  (exists f,
      In f [other_file; moves_file]
      /\ File.display_name f = Some (u "data_moves_json")
      /\ ensure_file SampleFS.fs MemoryService.service (u "data_moves_json") (u "d/moves.json")
           (MemoryService.Build [other_file; moves_file] [] no_reply, [])
         = (inr f,
            (MemoryService.Build [other_file; moves_file] [] no_reply,
             [EvFilesList (inr [other_file; moves_file])])))
  /\ ensure_file SampleFS.fs MemoryService.service (u "data_moves_json") (u "d/moves.json")
       (MemoryService.empty no_reply, [])
     = (inr moves_file,
        (MemoryService.Build [moves_file] [] no_reply,
         [EvFilesList (inr []); EvFilesUpload (u "d/moves.json") moves_config (inr moves_file)]))
  /\ ensure_file SampleFS.fs MemoryService.service (u "data_moves_json") (u "d/moves.json")
       (MemoryService.Build [moves_file] [] no_reply,
        [EvFilesList (inr []); EvFilesUpload (u "d/moves.json") moves_config (inr moves_file)])
     = (inr moves_file,
        (MemoryService.Build [moves_file] [] no_reply,
         [EvFilesList (inr []); EvFilesUpload (u "d/moves.json") moves_config (inr moves_file);
          EvFilesList (inr [moves_file])])).
Proof.
  split.
  - apply (proj1 (ensure_file_idempotent SampleFS.fs MemoryService.store
                    MemoryService.service (u "data_moves_json") (u "d/moves.json")
                    (MemoryService.Build [other_file; moves_file] [] no_reply)
                    (MemoryService.Build [other_file; moves_file] [] no_reply) []
                    [other_file; moves_file] eq_refl)).
    exists moves_file. split; [right; left; reflexivity|reflexivity].
  - destruct (ensure_file_idempotent SampleFS.fs MemoryService.store MemoryService.service
                (u "data_moves_json") (u "d/moves.json")
                (MemoryService.empty no_reply) (MemoryService.empty no_reply) [] []
                eq_refl) as [_ H].
    destruct (H (fun f Hin => False_ind _ Hin) moves_file
                (MemoryService.Build [moves_file] [] no_reply) eq_refl) as [H1 H2].
    split; [exact H1|].
    apply (H2 [moves_file] (MemoryService.Build [moves_file] [] no_reply)
              eq_refl eq_refl (or_introl eq_refl)).
    intros g [<-|[]]. now left.
Defined.

Lemma ensure_file_first_match_witness :
  ensure_file SampleFS.fs MemoryService.service (u "data_moves_json") (u "d/moves.json")
    (MemoryService.Build [other_file; moves_file; moves_copy] [] no_reply, [])
  = (inr moves_file,
     (MemoryService.Build [other_file; moves_file; moves_copy] [] no_reply,
      [EvFilesList (inr [other_file; moves_file; moves_copy])])).
Proof.
  apply (ensure_file_first_match SampleFS.fs MemoryService.store MemoryService.service
           (u "data_moves_json") (u "d/moves.json")
           (MemoryService.Build [other_file; moves_file; moves_copy] [] no_reply)
           (MemoryService.Build [other_file; moves_file; moves_copy] [] no_reply)
           [] [other_file] moves_file [moves_copy]);
    reflexivity.
Defined.



(** C9: a response without text, or with an empty text, is returned. *)
Lemma gemini_battler_returns_absent_text :
  fst (gemini_battler latin1_alnum SampleFS.fs MemoryService.service
         (sample_options false false None) (u "context") (u "prompt")
         (MemoryService.empty (inr (GenerateContentResponse.Build None)), []))
  = inr None
  /\ fst (gemini_battler latin1_alnum SampleFS.fs MemoryService.service
            (sample_options true false None) (u "context") (u "prompt")
            (MemoryService.empty (inr (GenerateContentResponse.Build (Some []))), []))
     = inr (Some []).
Proof. vm_compute. split; reflexivity. Qed.

Lemma gemini_battler_returns_generation_outcome_witness :
  fst (gemini_battler latin1_alnum SampleFS.fs MemoryService.service
         (sample_options false false None) (u "context") (u "prompt")
         (MemoryService.empty (inl (RemoteError "quota")), []))
  = inl (RemoteError "quota").
Proof.
  apply (gemini_battler_returns_generation_outcome latin1_alnum SampleFS.fs
           MemoryService.store MemoryService.service (sample_options false false None) (u "context")
           (u "prompt") (MemoryService.empty (inl (RemoteError "quota")))
           (MemoryService.empty (inl (RemoteError "quota"))) []
           [EvModelsGet (u "models/gemini-2.5-flash") (inr flash);
            EvGenerateContent (Some (u "models/gemini-2.5-flash")) (u "prompt")
              (GenerateContentConfig.Build (Some (u "context")) None)
              (inl (RemoteError "quota"))]
           [EvModelsGet (u "models/gemini-2.5-flash") (inr flash)]
           _ (Some (u "models/gemini-2.5-flash")) (u "prompt")
           (GenerateContentConfig.Build (Some (u "context")) None)
           (inl (RemoteError "quota")));
    reflexivity.
Defined.


(* ===================================================================== *)
(** * Runs on concrete inputs *)
(* ===================================================================== *)

Example ex_re_escape :
  re_escape (u "A.B x") = u "A\.B\ x".
Proof. reflexivity. Qed.

Example ex_compile_player :
  re_compile (u "^[\w-]+$")
  = inr [AT_BEGINNING; CHARS (IN [SetCategory CATEGORY_WORD; SetLiteral 45]) MAX_REPEAT_1; AT_END].
Proof. reflexivity. Qed.

Example ex_prompt_input_1 :
  prompt_input latin1_alnum (u "a ${{ X }} b") (u "X") (u "Y") = inr (u "a Y b").
Proof. vm_compute. reflexivity. Qed.

Example ex_prompt_input_2 :
  prompt_input latin1_alnum (u "${{X}}") (u "X") (u "Y") = inr (u "${{X}}").
Proof. vm_compute. reflexivity. Qed.

Example ex_validate_player_1 :
  validate_player latin1_alnum (u "p1") = inr (u "p1")
  /\ validate_player latin1_alnum [112; 10]%N = inr [112; 10]%N
  /\ validate_player latin1_alnum [233]%N = inr [233]%N
  /\ validate_player latin1_alnum (u "a b") = inl (ValueError "Player is not an alphanumeric ID")
  /\ validate_player latin1_alnum [112; 10; 10]%N = inl (ValueError "Player is not an alphanumeric ID")
  /\ validate_player latin1_alnum [] = inl (NameError "Player ID is not defined").
Proof. vm_compute. repeat split. Qed.

Example ex_mini_json :
  MiniJson.loads (json_text "{'player_data': {}, 'a': [1, -20, 'x\n', null]}")
  = inr (PyDict [(u "player_data", PyDict []);
                 (u "a", PyList [PyInt 1; PyInt (-20); PyStr [120; 10]%N; PyNone])])
  /\ MiniJson.dumps (PyDict [(u "a", PyList [PyInt 1; PyInt (-20); PyStr [120; 10; 233]%N])])
     = inr (json_text "{'a': [1, -20, 'x\n\u00e9']}").
Proof. vm_compute. split; reflexivity. Qed.

Example ex_gemini_battler_inline :
  gemini_battler latin1_alnum SampleFS.fs MemoryService.service
    (sample_options false false None) (u "context") (u "prompt")
    (MemoryService.empty (inr (GenerateContentResponse.Build (Some (u "move 1")))), [])
  = (inr (Some (u "move 1")),
     (MemoryService.empty (inr (GenerateContentResponse.Build (Some (u "move 1")))),
      [EvModelsGet (u "models/gemini-2.5-flash")
         (inr (Model.Build (Some (u "models/gemini-2.5-flash")) (Some 1048576%Z)));
       EvGenerateContent (Some (u "models/gemini-2.5-flash")) (u "prompt")
         (GenerateContentConfig.Build (Some (u "context")) None)
         (inr (GenerateContentResponse.Build (Some (u "move 1"))))])).
Proof. vm_compute. reflexivity. Qed.

Example ex_ensure_all_files :
  fst (ensure_all_files_in_directory latin1_alnum SampleFS.fs MemoryService.service
         (u "data") (u "d") (fun path => str_eqb (suffix SampleFS.fs path) (u ".json"))
         (MemoryService.empty (inl (RemoteError "none")), []))
  = inr [File.Build (Some (u "files/d/moves.json")) (Some (u "data_moves_json"))
           (Some (u "application/json"));
         File.Build (Some (u "files/d/sub/items.json")) (Some (u "data_sub_items_json"))
           (Some (u "application/json"))].
Proof. vm_compute. reflexivity. Qed.

(** The line feed that [$] lets through: an identifier followed by one
    line feed is accepted, line feed included. *)
Example ex_validate_player_trailing_newline :
  validate_player latin1_alnum (u "p1" ++ [10%N]) = inr (u "p1" ++ [10%N])
  /\ player_char latin1_alnum 10 = false.
Proof. vm_compute. split; reflexivity. Qed.

(** A run with the cache and the data files in use, against an empty
    service: the configuration of the generation request names the cache
    and carries nothing inline; the files go into the cache. *)
Example ex_gemini_battler_cached :
  snd (snd (gemini_battler latin1_alnum SampleFS.fs MemoryService.service
              (sample_options true true (Some (u "d"))) (u "context") (u "prompt")
              (MemoryService.empty (inr (GenerateContentResponse.Build (Some (u "move 1")))),
               [])))
  = let items_file :=
      File.Build (Some (u "files/d/sub/items.json")) (Some (u "data_sub_items_json"))
        (Some (u "application/json")) in
    let cache :=
      CachedContent.Build (Some (u "cachedContents/1")) (Some (u "battler"))
        (Some (u "models/gemini-2.5-flash")) in
    [EvModelsGet (u "models/gemini-2.5-flash") (inr flash);
     EvFilesList (inr []);
     EvFilesUpload (u "d/moves.json") moves_config (inr moves_file);
     EvFilesList (inr [moves_file]);
     EvFilesUpload (u "d/sub/items.json")
       (UploadFileConfig.Build (Some (u "data_sub_items_json")) (Some (u "application/json")))
       (inr items_file);
     EvCachesList (inr []);
     EvCachesCreate (Some (u "models/gemini-2.5-flash"))
       (CreateCachedContentConfig.Build (Some (u "battler")) (Some (u "context"))
          (Some [moves_file; items_file]) (Some (u "300s")))
       (inr cache);
     EvGenerateContent (Some (u "models/gemini-2.5-flash")) (u "prompt")
       (GenerateContentConfig.Build None (Some (u "cachedContents/1")))
       (inr (GenerateContentResponse.Build (Some (u "move 1"))))].
Proof. vm_compute. reflexivity. Qed.

(* ===================================================================== *)
(** * More of the input validator *)
(* ===================================================================== *)

Section MoreValidation.

Variable unicode_alnum : N -> bool.

Lemma findall_head (r : regex) (fuel : nat) (bos : bool) (s : str) :
  findall_loop unicode_alnum (S fuel) r bos s <> [] ->
  (forall s', rmatch unicode_alnum r false s' = None) ->
  exists rest, rmatch unicode_alnum r bos s = Some rest.
Proof.
  intros Hne Hlater.
  destruct (rmatch unicode_alnum r bos s) as [rest|] eqn:Hm; [eauto|].
  exfalso. apply Hne. now apply findall_none.
Qed.

(** X1. [validate_player] accepts exactly the non-empty runs of word
    characters and hyphens, and such a run followed by one line feed; what
    it accepts it returns unchanged.  The empty string is refused with
    [NameError], everything else with [ValueError]. *)
Theorem validate_player_accepts_exactly :
  forall (player : str),
    (forall out,
        validate_player unicode_alnum player = inr out
        <-> out = player
            /\ exists body, body <> []
                            /\ forallb (player_char unicode_alnum) body = true
                            /\ (player = body \/ player = body ++ [10%N]))
    /\ (forall e,
           validate_player unicode_alnum player = inl e ->
           (player = [] /\ e = NameError "Player ID is not defined")
           \/ (player <> [] /\ e = ValueError "Player is not an alphanumeric ID")).
Proof.
  intros player. split.
  - intros out. split.
    + unfold validate_player, re_findall. destruct player as [|c s] eqn:E;
        cbn [str_is_empty]; [discriminate|]. rewrite <- E. rewrite compile_player.
      destruct (findall_loop unicode_alnum (S (length player)) player_regex true player)
        as [|m ms] eqn:Hf; [discriminate|].
      intros [= <-]. split; [reflexivity|].
      destruct (findall_head player_regex (length player) true player) as [rest Hm].
      * rewrite Hf. discriminate.
      * reflexivity.
      * now apply player_match_inv in Hm.
    + intros (-> & body & Hne & Hbody & [->| ->]).
      * now apply validate_player_accepts.
      * now apply validate_player_trailing_line_feed.
  - intros e. unfold validate_player, re_findall. destruct player as [|c s] eqn:E;
      cbn [str_is_empty].
    + intros [= <-]. now left.
    + rewrite compile_player.
      destruct (findall_loop unicode_alnum (S (length (c :: s))) player_regex true (c :: s));
        [|discriminate].
      intros [= <-]. right. split; [discriminate|reflexivity].
Qed.

End MoreValidation.

Lemma validate_player_accepts_exactly_witness :
  validate_player latin1_alnum (u "red-7" ++ [10%N]) = inr (u "red-7" ++ [10%N]).
Proof.
  apply (proj1 (validate_player_accepts_exactly latin1_alnum (u "red-7" ++ [10%N]))
           (u "red-7" ++ [10%N])).
  split; [reflexivity|]. exists (u "red-7").
  split; [discriminate|]. split; [reflexivity|]. right. reflexivity.
Defined.

(* ===================================================================== *)
(** * More of the reconciler *)
(* ===================================================================== *)

Section Sanitize.

Variable unicode_alnum : N -> bool.

Lemma compile_non_word : re_compile (u "\W+") = inr non_word_regex.
Proof. reflexivity. Qed.

Lemma repeat_more_total (p : N -> bool) (k : str -> option str) :
  (forall s, k s <> None) -> forall s, repeat_more p k s <> None.
Proof.
  intros Hk. induction s as [|c s IH]; cbn [repeat_more]; [apply Hk|].
  destruct (p c); [|apply Hk].
  destruct (repeat_more p k s); [discriminate|apply Hk].
Qed.

(** [\W+] matches at a character exactly when it is no word character. *)
Lemma non_word_match (bos : bool) (c : N) (s : str) :
  rmatch unicode_alnum non_word_regex bos (c :: s) = None
  <-> is_word unicode_alnum c = true.
Proof.
  unfold non_word_regex. cbn [rmatch charset_test category_test].
  destruct (is_word unicode_alnum c); cbn [negb]; split; try easy.
  intros H. exfalso. revert H. apply repeat_more_total. discriminate.
Qed.

Lemma is_word_underscore : is_word unicode_alnum 95 = true.
Proof. unfold is_word. apply orb_true_r. Qed.

(** The scan of [re.sub(r"\W+", "_", s)]: the result has word characters
    only, is no longer than [s], and is [s] when [s] has word characters
    only. *)
Lemma sanitize_scan (fuel : nat) :
  forall bos s,
    length s < fuel ->
    forallb (is_word unicode_alnum)
      (sub_loop unicode_alnum fuel non_word_regex (fun _ => u "_") bos s) = true
    /\ length (sub_loop unicode_alnum fuel non_word_regex (fun _ => u "_") bos s)
       <= length s
    /\ (forallb (is_word unicode_alnum) s = true ->
        sub_loop unicode_alnum fuel non_word_regex (fun _ => u "_") bos s = s).
Proof.
  induction fuel as [|fuel IH]; intros bos s Hlen; [lia|].
  cbn [sub_loop].
  destruct (rmatch unicode_alnum non_word_regex bos s) as [rest|] eqn:Hm.
  - pose proof (compiled_progress unicode_alnum _ _ _ _ _ compile_non_word Hm) as Hshort.
    destruct (IH false rest ltac:(lia)) as (Hw & Hl & _).
    change (u "_") with [95%N] in *. cbn [app forallb length].
    rewrite is_word_underscore, Hw. repeat split; [lia|].
    intros Hs. destruct s as [|c s]; [discriminate Hm|].
    cbn [forallb] in Hs. apply andb_true_iff in Hs as [Hc _].
    apply (non_word_match bos c s) in Hc. congruence.
  - destruct s as [|c s]; [repeat split; cbn; lia|].
    cbn [length] in Hlen. destruct (IH false s ltac:(lia)) as (Hw & Hl & Hfix).
    apply non_word_match in Hm. cbn [forallb length]. rewrite Hm, Hw.
    repeat split; [lia|].
    intros Hs. apply andb_true_iff in Hs as [_ Hs]. now rewrite (Hfix Hs).
Qed.

(** The name [ensure_all_files_in_directory] derives from a relative
    path. *)
Lemma sanitized_name (s : str) :
  exists name,
    re_sub unicode_alnum (u "\W+") (fun _ => u "_") s = inr name
    /\ forallb (is_word unicode_alnum) name = true
    /\ (forallb (is_word unicode_alnum) s = true -> name = s).
Proof.
  unfold re_sub. rewrite compile_non_word.
  destruct (sanitize_scan (S (length s)) true s ltac:(lia)) as (Hw & _ & Hfix).
  eexists. split; [reflexivity|]. auto.
Qed.

End Sanitize.

Section MoreReconciler.

Variable unicode_alnum : N -> bool.
Variable fs : LocalFS.
Variable remote : Type.
Variable client : Service remote.

(** The three ways [ensure_file] can go: the listing fails; a listed file
    has the display name; no listed file has it and the upload answers. *)
Lemma ensure_file_run (display_name : str) (path : Path) (s : remote) (log : list event) :
  exists r s' evs,
    ensure_file fs client display_name path (s, log) = (r, (s', log ++ evs))
    /\ ((exists e, r = inl e /\ evs = [EvFilesList (inl e)])
        \/ (exists files file,
               r = inr file /\ evs = [EvFilesList (inr files)]
               /\ find (file_named display_name) files = Some file)
        \/ (exists files,
               evs = [EvFilesList (inr files);
                      EvFilesUpload path
                        (UploadFileConfig.Build (Some display_name) (guess_type fs path)) r]
               /\ find (file_named display_name) files = None)).
Proof.
  destruct (files_list client s) as [[e|files] s1] eqn:Hlist.
  - exists (inl e), s1, [EvFilesList (inl e)]. split; [|left; eauto].
    unfold ensure_file. rewrite bind_run. unfold client_files_list, call.
    cbn [fst snd]. now rewrite Hlist.
  - destruct (find (file_named display_name) files) as [file|] eqn:Hfind.
    + exists (inr file), s1, [EvFilesList (inr files)].
      split; [now apply ensure_file_listed|]. right. left. eauto.
    + destruct (files_upload client path
                  (UploadFileConfig.Build (Some display_name) (guess_type fs path)) s1)
        as [answer s2] eqn:Hup.
      exists answer, s2,
        [EvFilesList (inr files);
         EvFilesUpload path
           (UploadFileConfig.Build (Some display_name) (guess_type fs path)) answer].
      split; [now apply ensure_file_uploads with (s1 := s1)|]. right. right. eauto.
Qed.

Lemma file_from_events_app_l (evs later : list event) (file : File.t) :
  file_from_events evs file -> file_from_events (evs ++ later) file.
Proof.
  intros [(files & Hin & Hf)|(path & config & Hin)].
  - left. exists files. split; [apply in_or_app; now left|exact Hf].
  - right. exists path, config. apply in_or_app. now left.
Qed.

Lemma file_from_events_app_r (before evs : list event) (file : File.t) :
  file_from_events evs file -> file_from_events (before ++ evs) file.
Proof.
  intros [(files & Hin & Hf)|(path & config & Hin)].
  - left. exists files. split; [apply in_or_app; now right|exact Hf].
  - right. exists path, config. apply in_or_app. now right.
Qed.

Lemma directory_call_cons (prefix : str) (dir : Path) (filter : Path -> bool)
  (path : Path) (paths : list Path) (ev : event) :
  directory_call unicode_alnum fs prefix dir filter paths ev ->
  directory_call unicode_alnum fs prefix dir filter (path :: paths) ev.
Proof.
  destruct ev; cbn; auto. intros (Hin & H). split; [now right|exact H].
Qed.

(** What the loop of [ensure_all_files_in_directory] does over a list of
    paths. *)
Lemma ensure_paths_run (prefix : str) (dir : Path) (filter : Path -> bool) :
  forall (paths : list Path) (s : remote) (log : list event),
  exists r s' evs,
    ensure_paths unicode_alnum fs client prefix dir filter paths (s, log)
    = (r, (s', log ++ evs))
    /\ Forall (directory_call unicode_alnum fs prefix dir filter paths) evs
    /\ length (List.filter is_files_list evs) <= length (selected_paths fs filter paths)
    /\ length (List.filter is_files_upload evs) <= length (List.filter is_files_list evs)
    /\ match r with
       | inr files =>
           length files = length (selected_paths fs filter paths)
           /\ length (List.filter is_files_list evs)
              = length (selected_paths fs filter paths)
           /\ Forall (file_from_events evs) files
       | inl e => exists evs' ev, evs = evs' ++ [ev] /\ event_error ev = Some e
       end.
Proof.
  unfold selected_paths.
  induction paths as [|path paths IH]; intros s log.
  - exists (inr []), s, []. rewrite app_nil_r. cbn. repeat split; auto.
  - cbn [ensure_paths List.filter].
    destruct (is_file fs path && filter path) eqn:Hsel.
    + apply andb_true_iff in Hsel as [Hfile Hfilter].
      destruct (sanitized_name unicode_alnum (relative_to fs path dir))
        as (name & Hname & Hword & Hfix).
      rewrite bind_run, Hname. cbn [lift]. unfold ret at 1. cbv beta iota.
      rewrite bind_run.
      destruct (ensure_file_run (prefix ++ u "_" ++ name) path s log)
        as (r1 & s1 & evs1 & E1 & Hcase).
      rewrite E1.
      assert (Hcalls : Forall (directory_call unicode_alnum fs prefix dir filter
                                 (path :: paths)) evs1).
      { destruct Hcase as [(e & -> & ->)|[(files & file & -> & -> & _)|(files & -> & _)]];
          repeat constructor; cbn; auto.
        exists name. auto. }
      destruct Hcase as [(e & -> & ->)|Hcase].
      { exists (inl e), s1, [EvFilesList (inl e)]. split; [reflexivity|].
        split; [exact Hcalls|]. cbn. repeat split; try lia.
        exists [], (EvFilesList (inl e)). auto. }
      destruct r1 as [e|file].
      { destruct Hcase as [(files & file & Habs & _)|(files & -> & _)]; [discriminate|].
        eexists (inl e), s1, _. split; [reflexivity|]. split; [exact Hcalls|].
        cbn. repeat split; try lia.
        eexists [_], _. split; [reflexivity|reflexivity]. }
      destruct (IH s1 (log ++ evs1)) as (r2 & s2 & evs2 & E2 & Hcalls2 & Hl2 & Hu2 & Hr2).
      rewrite bind_run, E2.
      assert (Hfrom : file_from_events evs1 file).
      { destruct Hcase as [(files & file' & [= <-] & -> & Hfind)|(files & -> & _)].
        - left. exists files. split; [now left|]. now apply find_some in Hfind.
        - right. eexists _, _. right. left. reflexivity. }
      assert (Hcount : length (List.filter is_files_list evs1) = 1
                       /\ length (List.filter is_files_upload evs1) <= 1).
      { destruct Hcase as [(files & file' & _ & -> & _)|(files & -> & _)]; cbn; lia. }
      assert (Hall : Forall (directory_call unicode_alnum fs prefix dir filter
                               (path :: paths)) (evs1 ++ evs2)).
      { apply Forall_app. split; [exact Hcalls|].
        eapply Forall_impl; [|exact Hcalls2]. intros ev. apply directory_call_cons. }
      destruct r2 as [e|files].
      * exists (inl e), s2, (evs1 ++ evs2). rewrite app_assoc.
        split; [reflexivity|]. split; [exact Hall|].
        rewrite !filter_app, !length_app. cbn [length]. repeat split; try lia.
        destruct Hr2 as (evs' & ev & -> & Herr).
        exists (evs1 ++ evs'), ev. now rewrite app_assoc.
      * exists (inr (file :: files)), s2, (evs1 ++ evs2). rewrite app_assoc.
        split; [reflexivity|]. split; [exact Hall|].
        destruct Hr2 as (Hlen & Hlists & Hfiles).
        rewrite !filter_app, !length_app. cbn [length]. repeat split; try lia.
        constructor; [now apply file_from_events_app_l|].
        eapply Forall_impl; [|exact Hfiles]. intros f. apply file_from_events_app_r.
    + destruct (IH s log) as (r & s' & evs & E & Hcalls & Hl & Hu & Hr).
      exists r, s', evs. split; [exact E|]. split; [|auto].
      eapply Forall_impl; [|exact Hcalls]. intros ev. apply directory_call_cons.
Qed.

Lemma cache_named_eq (display_name : str) (cache : CachedContent.t) :
  cache_named display_name cache = true
  <-> CachedContent.display_name cache = Some display_name.
Proof. unfold cache_named. apply opt_str_eqb_eq. Qed.

(** A listed cache with the display name: no creation. *)
Lemma ensure_cache_listed (model : option str) (display_name context : str)
  (files : option (list File.t)) (s s1 : remote) (log : list event)
  (caches : list CachedContent.t) (cache : CachedContent.t) :
  caches_list client s = (inr caches, s1) ->
  find (cache_named display_name) caches = Some cache ->
  ensure_cache client model display_name context files (s, log)
  = (inr cache, (s1, log ++ [EvCachesList (inr caches)])).
Proof.
  intros Hlist Hfind. unfold ensure_cache. rewrite bind_run.
  unfold client_caches_list, call. cbn [fst snd]. now rewrite Hlist, Hfind.
Qed.

(** No listed cache with the display name: one creation request, whose
    answer is the result. *)
Lemma ensure_cache_creates (model : option str) (display_name context : str)
  (files : option (list File.t)) (s s1 s2 : remote) (log : list event)
  (caches : list CachedContent.t) (answer : result CachedContent.t) :
  caches_list client s = (inr caches, s1) ->
  find (cache_named display_name) caches = None ->
  caches_create client model
    (CreateCachedContentConfig.Build (Some display_name) (Some context) files
       (Some (u "300s"))) s1 = (answer, s2) ->
  ensure_cache client model display_name context files (s, log)
  = (answer,
     (s2, log ++ [EvCachesList (inr caches);
                  EvCachesCreate model
                    (CreateCachedContentConfig.Build (Some display_name) (Some context)
                       files (Some (u "300s")))
                    answer])).
Proof.
  intros Hlist Hfind Hcreate. unfold ensure_cache. rewrite bind_run.
  unfold client_caches_list, call at 1. cbn [fst snd]. rewrite Hlist, Hfind.
  unfold client_caches_create, call. cbn [fst snd]. rewrite Hcreate.
  now rewrite <- app_assoc.
Qed.

(* ===================================================================== *)
(** * The reconciler: [ensure_all_files_in_directory] *)
(* ===================================================================== *)


(** X3. The outcome of [ensure_all_files_in_directory].  A run that
    succeeds returns one file per selected path (a path of
    [dir.rglob("*")] that is a file and passes the filter), has listed
    the remote files once per selected path, and each returned file was
    either found in one of these listings or is the answer of one of the
    uploads of the run.  A run that fails stops at the first failing
    call: the exception it raises is the one the last call of the run
    raised, and the files ensured so far are not returned. *)
Theorem ensure_all_files_in_directory_result :
  forall (prefix : str) (dir : Path) (filter : Path -> bool)
         (s : remote) (log : list event),
  exists r s' evs,
    ensure_all_files_in_directory unicode_alnum fs client prefix dir filter (s, log)
    = (r, (s', log ++ evs))
    /\ match r with
       | inr files =>
           length files = length (selected_paths fs filter (rglob fs dir))
           /\ length (List.filter is_files_list evs)
              = length (selected_paths fs filter (rglob fs dir))
           /\ Forall (file_from_events evs) files
       | inl e => exists evs' ev, evs = evs' ++ [ev] /\ event_error ev = Some e
       end.
Proof.
  intros prefix dir filter s log. unfold ensure_all_files_in_directory.
  destruct (ensure_paths_run prefix dir filter (rglob fs dir) s log)
    as (r & s' & evs & E & _ & _ & _ & Hr).
  exists r, s', evs. auto.
Qed.

(** X4. A directory without a selected path costs no remote call: when
    no path of [dir.rglob("*")] is a file that passes the filter,
    [ensure_all_files_in_directory] returns the empty list and leaves the
    remote state and the call log as they were. *)
Theorem ensure_all_files_in_directory_nothing_selected :
  forall (prefix : str) (dir : Path) (filter : Path -> bool) (w : world remote),
    selected_paths fs filter (rglob fs dir) = [] ->
    ensure_all_files_in_directory unicode_alnum fs client prefix dir filter w
    = (inr [], w).
Proof.
  intros prefix dir filter w. unfold ensure_all_files_in_directory, selected_paths.
  induction (rglob fs dir) as [|path paths IH]; intros Hnone; [reflexivity|].
  cbn [List.filter] in Hnone. cbn [ensure_paths].
  destruct (is_file fs path && filter path); [discriminate|]. now apply IH.
Qed.

(* ===================================================================== *)
(** * The reconciler: [ensure_cache] *)
(* ===================================================================== *)

(** X5. [ensure_cache] looks caches up by display name only.  When the
    listing holds a cache with the display name, the first such cache is
    returned after that one listing, whatever model, context and files
    the caller passes: they are not compared with what the cache was
    created from.  When no listed cache has the name, exactly one
    creation request follows the listing, for the given model, with the
    display name, the context as system instruction, the files as
    contents and a time to live of 300 seconds, and its answer (a cache
    or an exception) is the result.  If the service then lists the
    created cache under that name together with caches it listed before,
    a later [ensure_cache] for the name returns the same cache with one
    more listing and no creation, also for another model, context or
    list of files. *)
Theorem ensure_cache_by_display_name :
  forall (model : option str) (display_name context : str)
         (files : option (list File.t)) (s s1 : remote) (log : list event)
         (caches : list CachedContent.t),
    caches_list client s = (inr caches, s1) ->
    (forall before cache after,
        caches = before ++ cache :: after ->
        (forall c, In c before -> CachedContent.display_name c <> Some display_name) ->
        CachedContent.display_name cache = Some display_name ->
        ensure_cache client model display_name context files (s, log)
        = (inr cache, (s1, log ++ [EvCachesList (inr caches)])))
    /\
    ((forall c, In c caches -> CachedContent.display_name c <> Some display_name) ->
     forall (answer : result CachedContent.t) (s2 : remote),
       let config :=
         CreateCachedContentConfig.Build (Some display_name) (Some context) files
           (Some (u "300s")) in
       caches_create client model config s1 = (answer, s2) ->
       ensure_cache client model display_name context files (s, log)
       = (answer,
          (s2, log ++ [EvCachesList (inr caches); EvCachesCreate model config answer]))
       /\
       forall (created : CachedContent.t) (caches2 : list CachedContent.t) (s3 : remote)
              (model' : option str) (context' : str) (files' : option (list File.t))
              (log' : list event),
         answer = inr created ->
         CachedContent.display_name created = Some display_name ->
         caches_list client s2 = (inr caches2, s3) ->
         In created caches2 ->
         (forall g, In g caches2 -> g = created \/ In g caches) ->
         ensure_cache client model' display_name context' files' (s2, log')
         = (inr created, (s3, log' ++ [EvCachesList (inr caches2)]))).
Proof.
  intros model display_name context files s s1 log caches Hlist. split.
  - intros before cache after -> Hbefore Hcache.
    apply ensure_cache_listed; [exact Hlist|].
    apply find_first; [|now apply cache_named_eq].
    apply forallb_forall. intros c Hc. apply negb_true_iff.
    destruct (cache_named display_name c) eqn:Hn; [|reflexivity].
    apply cache_named_eq in Hn. now apply Hbefore in Hc.
  - intros Hnone answer s2 config Hcreate. split.
    + apply ensure_cache_creates with (s1 := s1); [exact Hlist| |exact Hcreate].
      apply find_none_iff. intros c Hc.
      destruct (cache_named display_name c) eqn:Hn; [|reflexivity].
      apply cache_named_eq in Hn. now apply Hnone in Hc.
    + intros created caches2 s3 model' context' files' log' -> Hname Hlist2 Hin Hothers.
      apply ensure_cache_listed; [exact Hlist2|].
      apply find_only; [exact Hin|now apply cache_named_eq|].
      intros g Hg. destruct (Hothers g Hg) as [->|Hold]; [now left|right].
      destruct (cache_named display_name g) eqn:Hn; [|reflexivity].
      apply cache_named_eq in Hn. now apply Hnone in Hold.
Qed.

(** X6. Two files of the directory whose relative paths differ only
    in characters that are not word characters get the same display
    name, and only the first is uploaded.  For a directory of two
    selected paths whose names are the same after the replacement, on a
    service that has no file of that name and that lists the uploaded
    file under the name afterwards, [ensure_all_files_in_directory]
    uploads the first path, takes the listed upload for the second path
    as already uploaded, and returns that one file twice: the second
    path is never uploaded. *)
Theorem ensure_all_files_in_directory_name_collision :
  forall (prefix : str) (dir : Path) (filter : Path -> bool) (path1 path2 : Path)
         (name : str) (s s1 s2 s3 : remote) (log : list event)
         (files files2 : list File.t) (uploaded : File.t),
    let display_name := prefix ++ u "_" ++ name in
    let config := UploadFileConfig.Build (Some display_name) (guess_type fs path1) in
    rglob fs dir = [path1; path2] ->
    is_file fs path1 && filter path1 = true ->
    is_file fs path2 && filter path2 = true ->
    re_sub unicode_alnum (u "\W+") (fun _ => u "_") (relative_to fs path1 dir) = inr name ->
    re_sub unicode_alnum (u "\W+") (fun _ => u "_") (relative_to fs path2 dir) = inr name ->
    files_list client s = (inr files, s1) ->
    (forall f, In f files -> File.display_name f <> Some display_name) ->
    files_upload client path1 config s1 = (inr uploaded, s2) ->
    File.display_name uploaded = Some display_name ->
    files_list client s2 = (inr files2, s3) ->
    In uploaded files2 ->
    (forall g, In g files2 -> g = uploaded \/ In g files) ->
    ensure_all_files_in_directory unicode_alnum fs client prefix dir filter (s, log)
    = (inr [uploaded; uploaded],
       (s3, log ++ [EvFilesList (inr files);
                    EvFilesUpload path1 config (inr uploaded);
                    EvFilesList (inr files2)])).
Proof.
  intros prefix dir filter path1 path2 name s s1 s2 s3 log files files2 uploaded
    display_name config Hrglob Hsel1 Hsel2 Hname1 Hname2 Hlist Hnone Hupload Hnamed
    Hlist2 Hin Hothers.
  unfold ensure_all_files_in_directory. rewrite Hrglob. cbn [ensure_paths].
  rewrite Hsel1, Hsel2. subst display_name config.
  set (display_name := prefix ++ u "_" ++ name) in *.
  rewrite bind_run, Hname1. cbn [lift]. unfold ret at 1. cbv beta iota.
  fold display_name. rewrite bind_run.
  rewrite (ensure_file_uploads fs remote client display_name path1 s s1 s2 log files
             (inr uploaded) Hlist).
  2:{ apply find_none_iff. intros f Hf.
      destruct (file_named display_name f) eqn:Hn; [|reflexivity].
      apply file_named_eq in Hn. now apply Hnone in Hf. }
  2:{ exact Hupload. }
  rewrite bind_run, bind_run, Hname2. cbn [lift]. unfold ret at 1. cbv beta iota.
  fold display_name. rewrite bind_run.
  rewrite (ensure_file_listed fs remote client display_name path2 s2 s3 _ files2
             uploaded Hlist2).
  2:{ apply find_only; [exact Hin|now apply file_named_eq|].
      intros g Hg. destruct (Hothers g Hg) as [->|Hold]; [now left|right].
      destruct (file_named display_name g) eqn:Hn; [|reflexivity].
      apply file_named_eq in Hn. now apply Hnone in Hold. }
  rewrite bind_run. unfold ret. rewrite <- app_assoc. reflexivity.
Qed.

End MoreReconciler.

(* ===================================================================== *)
(** * The orchestrator: the order of the calls *)
(* ===================================================================== *)

Section MoreOrchestrator.

Variable unicode_alnum : N -> bool.
Variable fs : LocalFS.
Variable remote : Type.
Variable client : Service remote.

Lemma directory_call_files (prefix : str) (dir : Path) (filter : Path -> bool)
  (paths : list Path) (evs : list event) :
  Forall (directory_call unicode_alnum fs prefix dir filter paths) evs ->
  forallb is_files_event evs = true.
Proof.
  induction 1 as [|ev evs Hev _ IH]; [reflexivity|].
  cbn [forallb]. rewrite IH. now destruct ev.
Qed.

(** The calls of [ensure_cache] for the cache named battler. *)
Lemma ensure_cache_phase (model : option str) (context : str)
  (files : option (list File.t)) (s : remote) (log : list event) :
  exists r s' evs,
    ensure_cache client model (u "battler") context files (s, log)
    = (r, (s', log ++ evs))
    /\ cache_phase model context files evs.
Proof.
  destruct (caches_list client s) as [[e|caches] s1] eqn:Hlist.
  - exists (inl e), s1, [EvCachesList (inl e)]. split; [|left; eauto].
    unfold ensure_cache. rewrite bind_run. unfold client_caches_list, call.
    cbn [fst snd]. now rewrite Hlist.
  - destruct (find (cache_named (u "battler")) caches) as [cache|] eqn:Hfind.
    + exists (inr cache), s1, [EvCachesList (inr caches)].
      split; [now apply ensure_cache_listed|]. right. left. eauto.
    + destruct (caches_create client model
                  (CreateCachedContentConfig.Build (Some (u "battler")) (Some context)
                     files (Some (u "300s"))) s1) as [answer s2] eqn:Hcreate.
      exists answer, s2,
        [EvCachesList (inr caches);
         EvCachesCreate model
           (CreateCachedContentConfig.Build (Some (u "battler")) (Some context)
              files (Some (u "300s")))
           answer].
      split; [now apply ensure_cache_creates with (s1 := s1)|]. right. right. eauto.
Qed.

(** The calls of a run of the orchestrator, phase by phase: the model
    lookup, the file calls, the cache calls, the generation request. *)
Lemma gemini_battler_phases (options : Options) (context prompt : str)
  (s : remote) (log : list event) :
  exists r s' answer F C G,
    gemini_battler unicode_alnum fs client options context prompt (s, log)
    = (r, (s', log ++ EvModelsGet (u "models/gemini-2.5-flash") answer :: F ++ C ++ G))
    /\ forallb is_files_event F = true
    /\ (use_data_files options = false -> F = [])
    /\ (C = []
        \/ use_cache options = true
           /\ exists model contents,
                answer = inr model
                /\ cache_phase (Model.name model) context contents C
                /\ data_contents fs options F contents)
    /\ (G = []
        \/ exists model config reply,
             answer = inr model
             /\ G = [EvGenerateContent (Model.name model) prompt config reply]).
Proof.
  destruct (gemini_battler unicode_alnum fs client options context prompt (s, log))
    as [out w] eqn:Hout.
  unfold gemini_battler in Hout. rewrite bind_run in Hout.
  unfold client_models_get, call in Hout. cbn [fst snd] in Hout.
  destruct (models_get client (u "models/gemini-2.5-flash") s) as [[e|model] s1].
  { injection Hout as <- <-. exists (inl e), s1, (inl e), [], [], [].
    repeat split; auto. }
  set (log1 := log ++ [EvModelsGet (u "models/gemini-2.5-flash") (inr model)]) in Hout.
  assert (HF : exists r s' F,
             (if use_data_files options
              then if negb (use_cache options)
                   then raise (ValueError "Caching must be enabled if using data files")
                   else match data options with
                        | None =>
                            raise (ValueError
                                     "Data directory must be defined if using data files")
                        | Some dir =>
                            bind (ensure_all_files_in_directory unicode_alnum fs client
                                    (u "data") dir
                                    (fun path => str_eqb (suffix fs path) (u ".json")))
                              (fun files => ret (Some files))
                        end
              else ret None) (s1, log1)
             = (r, (s', log1 ++ F))
             /\ forallb is_files_event F = true
             /\ (use_data_files options = false -> F = [])
             /\ (forall contents, r = inr contents -> data_contents fs options F contents)).
  { unfold data_contents. destruct (use_data_files options).
    - destruct (negb (use_cache options)).
      { exists (inl (ValueError "Caching must be enabled if using data files")), s1, [].
        rewrite app_nil_r. repeat split; discriminate. }
      destruct (data options) as [dir|].
      + rewrite bind_run. unfold ensure_all_files_in_directory.
        destruct (ensure_paths_run unicode_alnum fs remote client (u "data") dir
                    (is_json_file fs) (rglob fs dir) s1 log1)
          as (r & s' & F & E & Hcalls & _ & _ & Hr).
        change (fun path : Path => str_eqb (suffix fs path) (u ".json"))
          with (is_json_file fs).
        rewrite E. apply directory_call_files in Hcalls. destruct r as [e|files].
        * exists (inl e), s', F. repeat split; [exact Hcalls|discriminate..].
        * exists (inr (Some files)), s', F.
          repeat split; [exact Hcalls|discriminate|].
          intros contents [= <-]. destruct Hr as (Hlen & _ & Hfrom).
          exists dir, files. auto.
      + exists (inl (ValueError "Data directory must be defined if using data files")),
          s1, [].
        rewrite app_nil_r. repeat split; discriminate.
    - exists (inr None), s1, []. rewrite app_nil_r. repeat split; auto.
      now intros contents [= <-]. }
  rewrite bind_run in Hout.
  destruct HF as (r2 & s2 & F & E2 & HFfiles & HFnone & Hcontents).
  rewrite E2 in Hout. clear E2. destruct r2 as [e|contents].
  { injection Hout as <- <-. exists (inl e), s2, (inr model), F, [], [].
    subst log1. rewrite <- !app_assoc. cbn [app]. rewrite app_nil_r.
    repeat split; auto. }
  specialize (Hcontents contents eq_refl).
  rewrite bind_run in Hout. set (log2 := log1 ++ F) in Hout.
  assert (HC : exists r s' C,
             (if use_cache options
              then bind (ensure_cache client (Model.name model) (u "battler") context
                           contents)
                     (fun cache => ret (GenerateContentConfig.Build None
                                          (CachedContent.name cache)))
              else ret (GenerateContentConfig.Build (Some context) None)) (s2, log2)
             = (r, (s', log2 ++ C))
             /\ (C = [] \/ use_cache options = true
                           /\ cache_phase (Model.name model) context contents C)).
  { destruct (use_cache options).
    - rewrite bind_run.
      destruct (ensure_cache_phase (Model.name model) context contents s2 log2)
        as (r & s' & C & E & Hphase).
      rewrite E. destruct r as [e|cache].
      + exists (inl e), s', C. auto.
      + exists (inr (GenerateContentConfig.Build None (CachedContent.name cache))), s', C.
        auto.
    - exists (inr (GenerateContentConfig.Build (Some context) None)), s2, [].
      rewrite app_nil_r. auto. }
  destruct HC as (r3 & s3 & C & E3 & HCphase). rewrite E3 in Hout. clear E3.
  assert (HC : C = []
               \/ use_cache options = true
                  /\ exists model0 contents0,
                       (inr model : result Model.t) = inr model0
                       /\ cache_phase (Model.name model0) context contents0 C
                       /\ data_contents fs options F contents0).
  { destruct HCphase as [->|[Huse Hphase]]; [now left|right].
    split; [exact Huse|]. exists model, contents. auto. }
  subst log2 log1. destruct r3 as [e|config].
  { injection Hout as <- <-. exists (inl e), s3, (inr model), F, C, [].
    rewrite <- !app_assoc. cbn [app]. rewrite app_nil_r. repeat split; auto. }
  rewrite bind_run in Hout. unfold client_models_generate_content, call in Hout.
  cbn [fst snd] in Hout.
  destruct (generate_content client (Model.name model) prompt config s3) as [reply s4].
  exists (generation_outcome reply), s4, (inr model), F, C,
    [EvGenerateContent (Model.name model) prompt config reply].
  split.
  - rewrite <- Hout. rewrite <- !app_assoc. cbn [app]. destruct reply; reflexivity.
  - repeat split; auto. right. exists model, config, reply. auto.
Qed.

Lemma strict_ret {A : Type} (a : A) : strict (ret (remote := remote) a).
Proof.
  intros s log. exists (inr a), s, []. rewrite app_nil_r. split; [reflexivity|].
  intros [|x before] ev after e H; discriminate.
Qed.

Lemma strict_raise {A : Type} (e : exn) : strict (raise (remote := remote) (A := A) e).
Proof.
  intros s log. exists (inl e), s, []. rewrite app_nil_r. split; [reflexivity|].
  intros [|x before] ev after e' H; discriminate.
Qed.

Lemma strict_lift {A : Type} (r : result A) : strict (lift (remote := remote) r).
Proof. destruct r; [apply strict_raise|apply strict_ret]. Qed.

Lemma strict_call {A : Type} (op : remote -> result A * remote) (ev : result A -> event) :
  (forall answer e, event_error (ev answer) = Some e -> answer = inl e) ->
  strict (call op ev).
Proof.
  intros Hev s log. unfold call. cbn [fst snd].
  destruct (op s) as [answer s1]. exists answer, s1, [ev answer].
  split; [reflexivity|].
  intros [|x [|y before]] ev0 after e H Herr; try discriminate.
  injection H as <- <-. auto.
Qed.

Lemma strict_bind {A B : Type} (c : M remote A) (k : A -> M remote B) :
  strict c -> (forall a, strict (k a)) -> strict (bind c k).
Proof.
  intros Hc Hk s log. destruct (Hc s log) as (r & s1 & evs1 & E1 & H1).
  rewrite bind_run, E1. destruct r as [e|a].
  - exists (inl e), s1, evs1. split; [reflexivity|].
    intros before ev after e' Hsplit Herr.
    destruct (H1 before ev after e' Hsplit Herr) as [-> [= ->]]. auto.
  - destruct (Hk a s1 (log ++ evs1)) as (r2 & s2 & evs2 & E2 & H2).
    exists r2, s2, (evs1 ++ evs2). rewrite E2, app_assoc. split; [reflexivity|].
    intros before ev after e Hsplit Herr.
    apply app_eq_app in Hsplit as [l [[Hl Hr]|[Hl Hr]]].
    + destruct l as [|x l].
      * cbn [app] in Hr. symmetry in Hr. apply (H2 [] ev after e Hr Herr).
      * cbn [app] in Hr. injection Hr as <- ->.
        destruct (H1 before ev l e Hl Herr) as [_ Habs]. discriminate.
    + apply (H2 l ev after e Hr Herr).
Qed.

Lemma ensure_file_strict (display_name : str) (path : Path) :
  strict (ensure_file fs client display_name path).
Proof.
  unfold ensure_file. apply strict_bind.
  - apply strict_call. now intros [e|files] e' [= <-].
  - intros files. destruct (find (file_named display_name) files).
    + apply strict_ret.
    + apply strict_call. now intros [e|file] e' [= <-].
Qed.

Lemma ensure_paths_strict (prefix : str) (dir : Path) (filter : Path -> bool)
  (paths : list Path) :
  strict (ensure_paths unicode_alnum fs client prefix dir filter paths).
Proof.
  induction paths as [|path paths IH]; cbn [ensure_paths]; [apply strict_ret|].
  destruct (is_file fs path && filter path); [|exact IH].
  apply strict_bind; [apply strict_lift|]. intros name.
  apply strict_bind; [apply ensure_file_strict|]. intros file.
  apply strict_bind; [exact IH|]. intros files. apply strict_ret.
Qed.

Lemma ensure_cache_strict (model : option str) (display_name context : str)
  (files : option (list File.t)) :
  strict (ensure_cache client model display_name context files).
Proof.
  unfold ensure_cache. apply strict_bind.
  - apply strict_call. now intros [e|caches] e' [= <-].
  - intros caches. destruct (find (cache_named display_name) caches).
    + apply strict_ret.
    + apply strict_call. now intros [e|cache] e' [= <-].
Qed.

Lemma gemini_battler_strict (options : Options) (context prompt : str) :
  strict (gemini_battler unicode_alnum fs client options context prompt).
Proof.
  unfold gemini_battler. apply strict_bind.
  { apply strict_call. now intros [e|model] e' [= <-]. }
  intros model. apply strict_bind.
  { destruct (use_data_files options); [|apply strict_ret].
    destruct (negb (use_cache options)); [apply strict_raise|].
    destruct (data options) as [dir|]; [|apply strict_raise].
    apply strict_bind; [apply ensure_paths_strict|]. intros files. apply strict_ret. }
  intros files. apply strict_bind.
  { destruct (use_cache options); [|apply strict_ret].
    apply strict_bind; [apply ensure_cache_strict|]. intros cache. apply strict_ret. }
  intros config. apply strict_bind.
  { apply strict_call. now intros [e|response] e' [= <-]. }
  intros response. apply strict_ret.
Qed.

Lemma data_contents_app (options : Options) (before F after : list event)
  (contents : option (list File.t)) :
  data_contents fs options F contents ->
  data_contents fs options (before ++ F ++ after) contents.
Proof.
  unfold data_contents. destruct (use_data_files options); [|auto].
  intros (dir & files & Hdata & -> & Hlen & Hfrom). exists dir, files.
  repeat split; auto. eapply Forall_impl; [|exact Hfrom].
  intros file H. apply file_from_events_app_r. now apply file_from_events_app_l.
Qed.


(** X8. What [gemini_battler] asks the service to cache.  Every cache
    creation request of a run is made with [use_cache] on, after a cache
    listing that held no cache named battler, for the name of the model
    the lookup of the run returned, with the display name battler, the
    context as system instruction, and a time to live of 300 seconds.
    Its contents are [None] when [use_data_files] is off; otherwise they
    are the files ensured for the data directory: one per JSON file of
    the directory, each of them returned by a file listing or an upload
    of the same run. *)
Theorem gemini_battler_cache_request :
  forall (options : Options) (context prompt : str) (s : remote) (log : list event),
  exists r s' evs,
    gemini_battler unicode_alnum fs client options context prompt (s, log)
    = (r, (s', log ++ evs))
    /\ forall m config answer,
         In (EvCachesCreate m config answer) evs ->
         use_cache options = true
         /\ (exists model,
                In (EvModelsGet (u "models/gemini-2.5-flash") (inr model)) evs
                /\ m = Model.name model)
         /\ CreateCachedContentConfig.display_name config = Some (u "battler")
         /\ CreateCachedContentConfig.system_instruction config = Some context
         /\ CreateCachedContentConfig.ttl config = Some (u "300s")
         /\ data_contents fs options evs (CreateCachedContentConfig.contents config)
         /\ exists caches,
              In (EvCachesList (inr caches)) evs
              /\ find (cache_named (u "battler")) caches = None.
Proof.
  intros options context prompt s log.
  destruct (gemini_battler_phases options context prompt s log)
    as (r & s' & answer & F & C & G & E & HF & _ & HC & HG).
  exists r, s', (EvModelsGet (u "models/gemini-2.5-flash") answer :: F ++ C ++ G).
  split; [exact E|]. intros m config reply [Habs|Hin]; [discriminate|].
  apply in_app_or in Hin as [Hin|Hin].
  { rewrite forallb_forall in HF. apply HF in Hin. discriminate. }
  apply in_app_or in Hin as [Hin|Hin].
  2:{ destruct HG as [->|(model & cfg & rep & _ & ->)]; [contradiction|].
      destruct Hin as [Habs|[]]. discriminate. }
  destruct HC as [->|(Hon & model & contents & -> & Hphase & Hcontents)]; [contradiction|].
  destruct Hphase as [(e & ->)|[(caches & cache & -> & _)|(caches & a & -> & Hfind)]].
  { destruct Hin as [Habs|[]]. discriminate. }
  { destruct Hin as [Habs|[]]. discriminate. }
  destruct Hin as [Habs|[Hin|[]]]; [discriminate|]. injection Hin as <- <- <-.
  split; [exact Hon|]. split; [exists model; split; [now left|reflexivity]|].
  repeat split.
  - apply (data_contents_app options [EvModelsGet (u "models/gemini-2.5-flash") (inr model)]
             F _ contents Hcontents).
  - exists caches. split; [|exact Hfind]. right. apply in_or_app. right.
    apply in_or_app. left. now left.
Qed.

(** X9. [gemini_battler] never goes on after a remote call that raised,
    and never hides the exception: in every run, a call the service
    answered with an exception (the model lookup, a file listing, an
    upload, a cache listing, a cache creation or the generation request)
    is the last call of the run, and the run fails with that very
    exception.  Nothing is retried and nothing is caught. *)
Theorem gemini_battler_stops_at_first_error :
  forall (options : Options) (context prompt : str) (s : remote) (log : list event),
  exists r s' evs,
    gemini_battler unicode_alnum fs client options context prompt (s, log)
    = (r, (s', log ++ evs))
    /\ forall before ev after e,
         evs = before ++ ev :: after -> event_error ev = Some e ->
         after = [] /\ r = inl e.
Proof.
  intros options context prompt. apply gemini_battler_strict.
Qed.

End MoreOrchestrator.

(* ===================================================================== *)
(** * The options and [run] *)
(* ===================================================================== *)

Section MoreSetup.

Variable unicode_alnum : N -> bool.
Variable json_loads : str -> result pyobj.
Variable json_dumps : pyobj -> result str.
Variable disk : Disk.

Lemma validate_player_returns_input (player out : str) :
  validate_player unicode_alnum player = inr out -> out = player.
Proof.
  unfold validate_player. destruct (str_is_empty player); [discriminate|].
  destruct (re_findall unicode_alnum (u "^[\w-]+$") player) as [e|[|x found]];
    congruence.
Qed.

(** The inputs [validate_input] accepts. *)
Lemma validate_input_accepts (text out : str) :
  validate_input json_loads json_dumps text = inr out
  <-> text <> []
      /\ exists items,
           json_loads text = inr (PyDict items)
           /\ forallb (fun key => dict_contains key (PyDict items)) required_keys = true
           /\ json_dumps (PyDict items) = inr out.
Proof.
  unfold validate_input. destruct text as [|c text]; cbn [str_is_empty].
  { split; [discriminate|]. now intros [H _]. }
  destruct (json_loads (c :: text)) as [e|v].
  { split; [discriminate|]. intros (_ & items & H & _). discriminate. }
  cbn [required_keys forallb].
  destruct v as [| | | | | |items]; cbn [isinstance_dict negb];
    try (split; [discriminate|]; intros (_ & items & H & _); discriminate).
  destruct (dict_contains (u "player_data") (PyDict items)) eqn:H1; cbn [negb].
  2:{ split; [discriminate|]. intros (_ & items' & [= <-] & H & _).
      rewrite H1 in H. discriminate. }
  destruct (dict_contains (u "battle_state") (PyDict items)) eqn:H2; cbn [negb].
  2:{ split; [discriminate|]. intros (_ & items' & [= <-] & H & _).
      rewrite H1, H2 in H. discriminate. }
  destruct (dict_contains (u "request_data") (PyDict items)) eqn:H3; cbn [negb].
  2:{ split; [discriminate|]. intros (_ & items' & [= <-] & H & _).
      rewrite H1, H2, H3 in H. discriminate. }
  destruct (dict_contains (u "failed_actions") (PyDict items)) eqn:H4; cbn [negb].
  2:{ split; [discriminate|]. intros (_ & items' & [= <-] & H & _).
      rewrite H1, H2, H3, H4 in H. discriminate. }
  split.
  - intros H. split; [discriminate|]. exists items.
    rewrite H1, H2, H3, H4. auto.
  - intros (_ & items' & [= <-] & _ & H). exact H.
Qed.

(** X10. What [Options] accepts.  The construction succeeds exactly when
    the player is given and [validate_player] accepts it, the input is
    given, is not empty and is read by [json.loads] as an object with the
    four required keys that [json.dumps] can write, and the data
    directory, when given, exists and is a directory.  The options then
    hold the player as given, the text [json.dumps] wrote for the parsed
    input (not the text given), the data directory as given (or [None]),
    and the two flags as given: the flags are not checked against each
    other or against the data directory here.  When player and input
    are accepted and the data directory is given, a missing directory
    fails with the [ValueError] of a directory that does not exist, and
    an existing path that is not a directory with the [ValueError] of a
    path that is not a directory. *)
Theorem Options_init_accepts :
  forall (args : Args),
    (forall options,
        Options_init unicode_alnum json_loads json_dumps disk args = inr options
        <-> args_player args = Some (player options)
            /\ validate_player unicode_alnum (player options) = inr (player options)
            /\ (exists text items,
                   args_input args = Some text /\ text <> []
                   /\ json_loads text = inr (PyDict items)
                   /\ forallb (fun key => dict_contains key (PyDict items)) required_keys
                      = true
                   /\ json_dumps (PyDict items) = inr (input options))
            /\ match args_data args with
               | Some dir =>
                   path_exists disk dir = true /\ is_dir disk dir = true
                   /\ data options = Some dir
               | None => data options = None
               end
            /\ use_cache options = args_use_cache args
            /\ use_data_files options = args_use_data_files args)
    /\ (forall p text out dir,
           args_player args = Some p -> validate_player unicode_alnum p = inr p ->
           args_input args = Some text ->
           validate_input json_loads json_dumps text = inr out ->
           args_data args = Some dir ->
           (path_exists disk dir = false ->
            Options_init unicode_alnum json_loads json_dumps disk args
            = inl (ValueError "Data directory does not exist"))
           /\ (path_exists disk dir = true -> is_dir disk dir = false ->
               Options_init unicode_alnum json_loads json_dumps disk args
               = inl (ValueError "Data directory is not a directory"))).
Proof.
  intros args. split.
  - intros options. unfold Options_init. split.
    + destruct (args_player args) as [p|]; [|discriminate].
      destruct (validate_player unicode_alnum p) as [e|p'] eqn:Hp; [discriminate|].
      pose proof (validate_player_returns_input _ _ Hp) as ->.
      destruct (args_input args) as [text|]; [|discriminate].
      destruct (validate_input json_loads json_dumps text) as [e|out] eqn:Hin;
        [discriminate|].
      apply validate_input_accepts in Hin as (Hne & items & Hload & Hkeys & Hdump).
      unfold validate_data. destruct (args_data args) as [dir|].
      * destruct (path_exists disk dir); cbn [negb]; [|discriminate].
        destruct (is_dir disk dir); cbn [negb]; [|discriminate].
        intros [= <-]. cbn. repeat split; auto. exists text, items. auto.
      * intros [= <-]. cbn. repeat split; auto. exists text, items. auto.
    + intros (Hp & Hvalid & (text & items & Htext & Hne & Hload & Hkeys & Hdump)
              & Hdata & Hcache & Hfiles).
      rewrite Hp, Hvalid, Htext.
      assert (Hin : validate_input json_loads json_dumps text = inr (input options)).
      { apply validate_input_accepts. split; [exact Hne|]. exists items. auto. }
      rewrite Hin. unfold validate_data.
      destruct options as [pl inp uc dt udf]. cbn in *.
      destruct (args_data args) as [dir|].
      * destruct Hdata as (-> & -> & ->). cbn [negb]. now subst.
      * now subst.
  - intros p text out dir Hp Hvalid Htext Hin Hdir. unfold Options_init.
    rewrite Hp, Hvalid, Htext, Hin, Hdir. unfold validate_data. split.
    + now intros ->.
    + now intros -> ->.
Qed.

Variable fs : LocalFS.
Variable remote : Type.
Variable client : Service remote.

(** X11. [run] reads both templates before it calls the service.  When
    [context.md] is not in the program directory, the run fails with
    [FileNotFoundError] for that file; when [context.md] can be read and
    [prompt.md] is not there, it fails with [FileNotFoundError] for
    [prompt.md]; and when reading a template that exists fails, the run
    fails with the exception of the read.  In each case no remote call
    has been made: the remote state and the call log are unchanged. *)
Theorem run_needs_both_templates :
  forall (binary_dir : Path) (options : Options) (w : world remote),
    (path_exists disk (joinpath disk binary_dir (u "context.md")) = false ->
     run unicode_alnum disk fs client binary_dir options w
     = (inl (IOFailure (FileNotFoundError (u "File context.md does not exist"))), w))
    /\ (forall context,
           read_file disk binary_dir (u "context.md") = inr context ->
           path_exists disk (joinpath disk binary_dir (u "prompt.md")) = false ->
           run unicode_alnum disk fs client binary_dir options w
           = (inl (IOFailure (FileNotFoundError (u "File prompt.md does not exist"))), w))
    /\ (forall e,
           read_file disk binary_dir (u "context.md") = inl e
           \/ (exists context,
                  read_file disk binary_dir (u "context.md") = inr context
                  /\ read_file disk binary_dir (u "prompt.md") = inl e) ->
           run unicode_alnum disk fs client binary_dir options w
           = (inl (IOFailure e), w)).
Proof.
  intros binary_dir options w. split; [|split].
  - intros Hno. unfold run, read_file. now rewrite Hno.
  - intros context Hcontext Hno. unfold run. rewrite Hcontext.
    unfold read_file. now rewrite Hno.
  - intros e [Hcontext|(context & Hcontext & Hprompt)]; unfold run.
    + now rewrite Hcontext.
    + now rewrite Hcontext, Hprompt.
Qed.

(** X12. What [run] sends to the orchestrator.  When both templates are
    read, the outcome of the run is the outcome of [gemini_battler] on
    the context exactly as read from [context.md] (placeholders in the
    context are not rendered) and on the prompt read from [prompt.md]
    rendered twice: first every placeholder for PLAYER is replaced by the
    player, then, in the result, every placeholder for INPUT by the
    input.  An exception of the orchestrator is the failure of the run,
    and its output is the output of the run. *)
Theorem run_renders_prompt :
  forall (binary_dir : Path) (options : Options) (context template : str)
         (w : world remote),
    read_file disk binary_dir (u "context.md") = inr context ->
    read_file disk binary_dir (u "prompt.md") = inr template ->
    exists with_player prompt,
      Rendered (u "PLAYER") (player options) template with_player
      /\ Rendered (u "INPUT") (input options) with_player prompt
      /\ run unicode_alnum disk fs client binary_dir options w
         = match gemini_battler unicode_alnum fs client options context prompt w with
           | (inl e, w') => (inl (Failure e), w')
           | (inr output, w') => (inr output, w')
           end.
Proof.
  intros binary_dir options context template w Hcontext Htemplate.
  unfold run. rewrite Hcontext, Htemplate, prompt_input_scan.
  set (with_player := sub_loop unicode_alnum (S (length template))
                        (placeholder_regex (u "PLAYER")) (fun _ => player options)
                        false template).
  rewrite prompt_input_scan.
  set (prompt := sub_loop unicode_alnum (S (length with_player))
                   (placeholder_regex (u "INPUT")) (fun _ => input options)
                   false with_player).
  exists with_player, prompt. split; [|split; [|reflexivity]].
  - apply (scan_rendered unicode_alnum (u "PLAYER") (player options)
             (S (length template))). lia.
  - apply (scan_rendered unicode_alnum (u "INPUT") (input options)
             (S (length with_player))). lia.
Qed.

End MoreSetup.

(* ===================================================================== *)
(** * The statements above on the sample service, directory and disk *)
(* ===================================================================== *)

Lemma ensure_all_files_in_directory_nothing_selected_witness :
  ensure_all_files_in_directory latin1_alnum SampleFS.fs MemoryService.service
    (u "data") (u "d") (fun path => str_eqb (suffix SampleFS.fs path) (u ".md"))
    (MemoryService.empty no_reply, [])
  = (inr [], (MemoryService.empty no_reply, [])).
Proof.
  apply (ensure_all_files_in_directory_nothing_selected latin1_alnum SampleFS.fs
           MemoryService.store MemoryService.service (u "data") (u "d")
           (fun path => str_eqb (suffix SampleFS.fs path) (u ".md"))
           (MemoryService.empty no_reply, [])).
  reflexivity.
Defined.

Lemma ensure_cache_by_display_name_witness :
  ensure_cache MemoryService.service (Some (u "models/other")) (u "battler")
    (u "new context") None
    (MemoryService.Build [] [battler_cache] no_reply, [])
  = (inr battler_cache,
     (MemoryService.Build [] [battler_cache] no_reply, [EvCachesList (inr [battler_cache])]))
  /\ ensure_cache MemoryService.service (Some (u "models/gemini-2.5-flash")) (u "battler")
       (u "context") None (MemoryService.empty no_reply, [])
     = (inr battler_cache,
        (MemoryService.Build [] [battler_cache] no_reply,
         [EvCachesList (inr []);
          EvCachesCreate (Some (u "models/gemini-2.5-flash"))
            (CreateCachedContentConfig.Build (Some (u "battler")) (Some (u "context")) None
               (Some (u "300s")))
            (inr battler_cache)]))
  /\ ensure_cache MemoryService.service (Some (u "models/other")) (u "battler")
       (u "new context") (Some [moves_file])
       (MemoryService.Build [] [battler_cache] no_reply, [])
     = (inr battler_cache,
        (MemoryService.Build [] [battler_cache] no_reply,
         [EvCachesList (inr [battler_cache])])).
Proof.
  split.
  - apply (proj1 (ensure_cache_by_display_name MemoryService.store MemoryService.service
                    (Some (u "models/other")) (u "battler") (u "new context") None
                    (MemoryService.Build [] [battler_cache] no_reply)
                    (MemoryService.Build [] [battler_cache] no_reply) []
                    [battler_cache] eq_refl) [] battler_cache [] eq_refl).
    + intros c [].
    + reflexivity.
  - destruct (ensure_cache_by_display_name MemoryService.store MemoryService.service
                (Some (u "models/gemini-2.5-flash")) (u "battler") (u "context") None
                (MemoryService.empty no_reply) (MemoryService.empty no_reply) [] []
                eq_refl) as [_ H].
    destruct (H (fun c Hin => False_ind _ Hin) (inr battler_cache)
                (MemoryService.Build [] [battler_cache] no_reply) eq_refl) as [H1 H2].
    split; [exact H1|].
    apply (H2 battler_cache [battler_cache]
              (MemoryService.Build [] [battler_cache] no_reply)
              (Some (u "models/other")) (u "new context") (Some [moves_file]) []
              eq_refl eq_refl eq_refl (or_introl eq_refl)).
    intros g [<-|[]]. now left.
Defined.

Lemma ensure_all_files_in_directory_name_collision_witness :
  ensure_all_files_in_directory latin1_alnum colliding_fs MemoryService.service
    (u "data") (u "d") (is_json_file colliding_fs) (MemoryService.empty no_reply, [])
  = (inr [colliding_file; colliding_file],
     (MemoryService.Build [colliding_file] [] no_reply,
      [EvFilesList (inr []);
       EvFilesUpload (u "d/a b.json")
         (UploadFileConfig.Build (Some (u "data_a_b_json")) (Some (u "application/json")))
         (inr colliding_file);
       EvFilesList (inr [colliding_file])])).
Proof.
  apply (ensure_all_files_in_directory_name_collision latin1_alnum colliding_fs
           MemoryService.store MemoryService.service (u "data") (u "d")
           (is_json_file colliding_fs) (u "d/a b.json") (u "d/a_b.json") (u "a_b_json")
           (MemoryService.empty no_reply) (MemoryService.empty no_reply)
           (MemoryService.Build [colliding_file] [] no_reply)
           (MemoryService.Build [colliding_file] [] no_reply)
           [] [] [colliding_file] colliding_file
           eq_refl eq_refl eq_refl eq_refl eq_refl eq_refl
           (fun f Hin => False_ind _ Hin) eq_refl eq_refl eq_refl (or_introl eq_refl)).
  intros g [<-|[]]. now left.
Defined.

Lemma Options_init_accepts_witness :
  Options_init latin1_alnum MiniJson.loads MiniJson.dumps SampleDisk.disk
    (sample_args (Some (u "d")))
  = inr {| player := u "p1"; input := sample_input; use_cache := true;
           data := Some (u "d"); use_data_files := false |}
  /\ Options_init latin1_alnum MiniJson.loads MiniJson.dumps SampleDisk.disk
       (sample_args (Some (u "missing")))
     = inl (ValueError "Data directory does not exist")
  /\ Options_init latin1_alnum MiniJson.loads MiniJson.dumps SampleDisk.disk
       (sample_args (Some (u "notes.txt")))
     = inl (ValueError "Data directory is not a directory").
Proof.
  split; [|split].
  - apply (proj1 (Options_init_accepts latin1_alnum MiniJson.loads MiniJson.dumps
                    SampleDisk.disk (sample_args (Some (u "d"))))).
    split; [reflexivity|]. split; [reflexivity|]. split.
    + exists sample_input,
        [(u "player_data", PyDict []); (u "battle_state", PyDict []);
         (u "request_data", PyDict []); (u "failed_actions", PyList [])].
      split; [reflexivity|]. split; [discriminate|]. repeat split; reflexivity.
    + repeat split; reflexivity.
  - apply (proj2 (Options_init_accepts latin1_alnum MiniJson.loads MiniJson.dumps
                    SampleDisk.disk (sample_args (Some (u "missing"))))
             (u "p1") sample_input sample_input (u "missing")
             eq_refl eq_refl eq_refl eq_refl eq_refl).
    reflexivity.
  - apply (proj2 (Options_init_accepts latin1_alnum MiniJson.loads MiniJson.dumps
                    SampleDisk.disk (sample_args (Some (u "notes.txt"))))
             (u "p1") sample_input sample_input (u "notes.txt")
             eq_refl eq_refl eq_refl eq_refl eq_refl); reflexivity.
Defined.

Lemma run_needs_both_templates_witness :
  run latin1_alnum SampleDisk.no_prompt SampleFS.fs MemoryService.service (u "bin")
    (sample_options false false None) (MemoryService.empty no_reply, [])
  = (inl (IOFailure (FileNotFoundError (u "File prompt.md does not exist"))),
     (MemoryService.empty no_reply, [])).
Proof.
  apply (proj1 (proj2 (run_needs_both_templates latin1_alnum SampleDisk.no_prompt
                         SampleFS.fs MemoryService.store MemoryService.service (u "bin")
                         (sample_options false false None)
                         (MemoryService.empty no_reply, [])))
           (u "You play ${{ PLAYER }}.")); reflexivity.
Defined.

Lemma run_renders_prompt_witness :
  exists with_player prompt,
    Rendered (u "PLAYER") (u "p1") (u "Player ${{ PLAYER }}, state: ${{ INPUT }}")
      with_player
    /\ Rendered (u "INPUT") sample_input with_player prompt
    /\ run latin1_alnum SampleDisk.disk SampleFS.fs MemoryService.service (u "bin")
         (sample_options false false None) (MemoryService.empty no_reply, [])
       = match
           gemini_battler latin1_alnum SampleFS.fs MemoryService.service
             (sample_options false false None) (u "You play ${{ PLAYER }}.") prompt
             (MemoryService.empty no_reply, [])
         with
         | (inl e, w') => (inl (Failure e), w')
         | (inr output, w') => (inr output, w')
         end.
Proof.
  exact (run_renders_prompt latin1_alnum SampleDisk.disk SampleFS.fs MemoryService.store
           MemoryService.service (u "bin") (sample_options false false None)
           (u "You play ${{ PLAYER }}.") (u "Player ${{ PLAYER }}, state: ${{ INPUT }}")
           (MemoryService.empty no_reply, []) eq_refl eq_refl).
Defined.

(** The run of the sample: the prompt sent has the player and the input
    in place of their placeholders, and the context still has its
    placeholder. *)
Example ex_run_sample :
  snd (snd (run latin1_alnum SampleDisk.disk SampleFS.fs MemoryService.service (u "bin")
              (sample_options false false None)
              (MemoryService.empty (inr (GenerateContentResponse.Build (Some (u "move 1")))),
               [])))
  = [EvModelsGet (u "models/gemini-2.5-flash") (inr flash);
     EvGenerateContent (Some (u "models/gemini-2.5-flash"))
       (u "Player p1, state: " ++ sample_input)
       (GenerateContentConfig.Build (Some (u "You play ${{ PLAYER }}.")) None)
       (inr (GenerateContentResponse.Build (Some (u "move 1"))))].
Proof. vm_compute. reflexivity. Qed.
